(** * The video timeline editor of [CuttingPage.tsx]

    A shallow embedding of the cutting page (chunk placement, timeline
    clicks, thumbnail sampling, seeking, duration resolution and the
    rendered geometry) together with the properties of its behaviour.

    Every number of the page is a JavaScript [number].  The embedding is
    written once, over an interface [Number] of the operations the page uses,
    and run on two instances: [binary64], the IEEE-754 doubles of the
    kernel (what a JavaScript engine computes), and [Exact.exact], the
    rationals extended with [NaN] and the two infinities.  What is proved
    for every [Number] holds of the doubles.  The properties of
    [pixelToTime], which rest on arithmetic, are proved from the facts
    collected in [Arithmetic].  These are established for [Exact.exact]
    and, from the specification of the kernel's floats, for the doubles:
    the two facts of [Rounding], that multiplying and dividing by a finite
    positive double keep the order, are proved from the way the
    specification rounds.

    The handlers of the component are functions from the state of the
    component to its next state, together with what the user sees.  The
    video element is a record the handlers read and replace.  A promise is
    a state machine run on the events that reach it, with time counted in
    milliseconds.  A closure created by the effect is the value it captured
    when the effect ran. *)

From Stdlib Require Import Floats ZArith QArith Qcanon List Bool String Lia.
Import ListNotations.

Close Scope Q_scope.
Close Scope Qc_scope.
Close Scope float_scope.
Set Implicit Arguments.

(** ** JavaScript numbers *)

Class Number : Type := {
  num : Type;
  ofNat : nat -> num;              (* an integer literal or loop counter *)
  add : num -> num -> num;         (* x + y *)
  sub : num -> num -> num;         (* x - y *)
  mul : num -> num -> num;         (* x * y *)
  div : num -> num -> num;         (* x / y *)
  ltb : num -> num -> bool;        (* x < y *)
  leb : num -> num -> bool;        (* x <= y *)
  eqb : num -> num -> bool;        (* x === y *)
  isFinite : num -> bool;          (* isFinite(x) *)
  Math_min : num -> num -> num;    (* Math.min(x, y) *)
  Math_max : num -> num -> num     (* Math.max(x, y) *)
}.

Declare Scope js_scope.
Delimit Scope js_scope with js.
Infix "+" := add : js_scope.
Infix "-" := sub : js_scope.
Infix "*" := mul : js_scope.
Infix "/" := div : js_scope.
Infix "<?" := ltb : js_scope.
Infix "<=?" := leb : js_scope.
Infix "=?" := eqb : js_scope.

Section Derived.
Context {N : Number}.

(** [x > y] and [x >= y] are [y < x] and [y <= x]: all four comparisons
    are false as soon as one side is [NaN]. *)
Definition gtb (x y : num) : bool := ltb y x.
Definition geb (x y : num) : bool := leb y x.

(** [Number.isNaN(x)], which is [x !== x]. *)
Definition isNaN (x : num) : bool := negb (eqb x x).

Definition zero : num := ofNat 0.
Definition one : num := ofNat 1.
End Derived.

Infix ">?" := gtb (at level 70) : js_scope.
Infix ">=?" := geb (at level 70) : js_scope.

(** *** The doubles *)

(** The double nearest to [n]. *)
Definition f64_ofNat (n : nat) : float :=
  SF2Prim (binary_normalize prec emax (Z.of_nat n) 0 false).

(** [Math.min]: [NaN] if an argument is [NaN]; [-0] is smaller than [+0]. *)
Definition f64_min (a b : float) : float :=
  if (is_nan a || is_nan b)%bool then nan
  else if PrimFloat.ltb a b then a
  else if PrimFloat.ltb b a then b
  else if get_sign a then a else b.

(** [Math.max]: [NaN] if an argument is [NaN]; [+0] is larger than [-0]. *)
Definition f64_max (a b : float) : float :=
  if (is_nan a || is_nan b)%bool then nan
  else if PrimFloat.ltb a b then b
  else if PrimFloat.ltb b a then a
  else if get_sign a then b else a.

Definition binary64 : Number := {|
  num := float;
  ofNat := f64_ofNat;
  add := PrimFloat.add;
  sub := PrimFloat.sub;
  mul := PrimFloat.mul;
  div := PrimFloat.div;
  ltb := PrimFloat.ltb;
  leb := PrimFloat.leb;
  eqb := PrimFloat.eqb;
  isFinite := is_finite;
  Math_min := f64_min;
  Math_max := f64_max
|}.

(** *** Exact arithmetic: the rationals with [NaN], [+Infinity], [-Infinity] *)

Module Exact.

Inductive t : Type :=
| NaN
| Inf (negative : bool)
| Fin (q : Qc).

Definition Qc_ltb (p q : Qc) : bool :=
  match (p ?= q)%Qc with Lt => true | _ => false end.
Definition Qc_leb (p q : Qc) : bool :=
  match (p ?= q)%Qc with Gt => false | _ => true end.
Definition Qc_eqb (p q : Qc) : bool :=
  match (p ?= q)%Qc with Eq => true | _ => false end.

Definition ofNat (n : nat) : t := Fin (Q2Qc (inject_Z (Z.of_nat n))).

Definition opp (x : t) : t :=
  match x with
  | NaN => NaN
  | Inf s => Inf (negb s)
  | Fin q => Fin (- q)%Qc
  end.

Definition add (x y : t) : t :=
  match x, y with
  | NaN, _ | _, NaN => NaN
  | Inf s, Inf s' => if Bool.eqb s s' then Inf s else NaN
  | Inf s, Fin _ | Fin _, Inf s => Inf s
  | Fin p, Fin q => Fin (p + q)%Qc
  end.

Definition sub (x y : t) : t := add x (opp y).

(** The sign of a rational: [None] for zero, [Some true] for negative. *)
Definition sign (q : Qc) : option bool :=
  match (q ?= Q2Qc 0)%Qc with
  | Eq => None
  | Lt => Some true
  | Gt => Some false
  end.

Definition mul (x y : t) : t :=
  match x, y with
  | NaN, _ | _, NaN => NaN
  | Inf s, Inf s' => Inf (xorb s s')
  | Inf s, Fin q | Fin q, Inf s =>
      match sign q with
      | None => NaN
      | Some s' => Inf (xorb s s')
      end
  | Fin p, Fin q => Fin (p * q)%Qc
  end.

(** There is no negative zero: a non-zero number over zero is the
    infinity of its sign, and zero over zero is [NaN]. *)
Definition div (x y : t) : t :=
  match x, y with
  | NaN, _ | _, NaN => NaN
  | Inf _, Inf _ => NaN
  | Inf s, Fin q =>
      match sign q with
      | None => Inf s
      | Some s' => Inf (xorb s s')
      end
  | Fin _, Inf _ => Fin (Q2Qc 0)
  | Fin p, Fin q =>
      match sign q with
      | None =>
          match sign p with
          | None => NaN
          | Some s => Inf s
          end
      | Some _ => Fin (p / q)%Qc
      end
  end.

Definition ltb (x y : t) : bool :=
  match x, y with
  | NaN, _ | _, NaN => false
  | Inf s, Inf s' => s && negb s'
  | Inf s, Fin _ => s
  | Fin _, Inf s => negb s
  | Fin p, Fin q => Qc_ltb p q
  end.

Definition leb (x y : t) : bool :=
  match x, y with
  | NaN, _ | _, NaN => false
  | Inf s, Inf s' => s || negb s'
  | Inf s, Fin _ => s
  | Fin _, Inf s => negb s
  | Fin p, Fin q => Qc_leb p q
  end.

Definition eqb (x y : t) : bool :=
  match x, y with
  | Inf s, Inf s' => Bool.eqb s s'
  | Fin p, Fin q => Qc_eqb p q
  | _, _ => false
  end.

Definition isFinite (x : t) : bool :=
  match x with Fin _ => true | _ => false end.

Definition min (x y : t) : t :=
  match x, y with
  | NaN, _ | _, NaN => NaN
  | _, _ => if ltb y x then y else x
  end.

Definition max (x y : t) : t :=
  match x, y with
  | NaN, _ | _, NaN => NaN
  | _, _ => if ltb x y then y else x
  end.

Definition exact : Number :=
  Build_Number ofNat add sub mul div ltb leb eqb isFinite min max.

End Exact.

(** ** The page *)

(** *** The video element

    What the page reads and writes of its [HTMLVideoElement]: the playback
    position, the reported duration, the ready state, the seekable ranges
    and the registered event listeners.  A listener is a function object,
    identified by the number it was allocated under. *)

Inductive EventType : Type :=
| loadedmetadata
| durationchange
| timeupdate
| seeked.

Definition EventType_eqb (a b : EventType) : bool :=
  match a, b with
  | loadedmetadata, loadedmetadata
  | durationchange, durationchange
  | timeupdate, timeupdate
  | seeked, seeked => true
  | _, _ => false
  end.

Definition Listener : Type := (EventType * nat)%type.

Definition Listener_eqb (a b : Listener) : bool :=
  EventType_eqb (fst a) (fst b) && Nat.eqb (snd a) (snd b).

Module Video.
Section WithNumber.
Context {N : Number}.

Record t : Type := {
  currentTime : num;
  duration : num;
  readyState : nat;
  seekable : list (num * num);     (* TimeRanges: (start(i), end(i)) *)
  listeners : list Listener
}.

(** [video.currentTime = time] *)
Definition setCurrentTime (time : num) (video : t) : t :=
  {| currentTime := time;
     duration := duration video;
     readyState := readyState video;
     seekable := seekable video;
     listeners := listeners video |}.

Definition setListeners (ls : list Listener) (video : t) : t :=
  {| currentTime := currentTime video;
     duration := duration video;
     readyState := readyState video;
     seekable := seekable video;
     listeners := ls |}.

(** [video.addEventListener(type, fn)]: a listener that is already
    registered is not registered twice. *)
Definition addEventListener (type : EventType) (fn : nat) (video : t) : t :=
  if existsb (Listener_eqb (type, fn)) (listeners video) then video
  else setListeners (listeners video ++ [(type, fn)]) video.

(** [video.removeEventListener(type, fn)] *)
Definition removeEventListener (type : EventType) (fn : nat) (video : t) : t :=
  setListeners
    (filter (fun l => negb (Listener_eqb (type, fn) l)) (listeners video))
    video.

Definition registered (type : EventType) (fn : nat) (video : t) : bool :=
  existsb (Listener_eqb (type, fn)) (listeners video).
End WithNumber.
Arguments t {N}.
End Video.

Section Page.
Context {N : Number}.
Local Open Scope js_scope.

Record Chunk : Type := { start : num; end_ : num }.

(** The fields of [getBoundingClientRect()] the page reads. *)
Record DOMRect : Type := { left : num; width : num }.

(** The refs and the state variables of the component. *)
Record State : Type := {
  videoRef : option Video.t;
  timelineRef : option DOMRect;
  duration : num;
  currentTime : num;
  chunks : list Chunk;
  thumbnails : list string;
  loadingThumbs : bool
}.

Definition minChunk : num := ofNat 2.
Definition maxChunk : num := ofNat 10.
Definition thumbCount : nat := 15.

Definition setChunks (f : list Chunk -> list Chunk) (st : State) : State :=
  {| videoRef := videoRef st;
     timelineRef := timelineRef st;
     duration := duration st;
     currentTime := currentTime st;
     chunks := f (chunks st);
     thumbnails := thumbnails st;
     loadingThumbs := loadingThumbs st |}.

(** *** [handleAddChunk] (lines 149-158) *)

(** What the user sees of a click on "Add Chunk". *)
Inductive Outcome : Type :=
| Silent                    (* a bare [return] *)
| Alert (message : string)  (* [return alert(message)] *)
| Appended (c : Chunk).     (* [setChunks] was called *)

(** The candidate of a click: [start] and [end] as the handler computes
    them from the playback position and the duration. *)
Definition candidate (time dur : num) : Chunk :=
  {| start := time; end_ := Math_min (time + maxChunk) dur |}.

(** [(c) => !(end <= c.start || start >= c.end)] *)
Definition overlapsWith (cand c : Chunk) : bool :=
  negb ((end_ cand <=? start c) || (start cand >=? end_ c)).

Definition handleAddChunk (st : State) : Outcome * State :=
  match videoRef st with
  | None => (Silent, st)
  | Some video =>
      if duration st <=? zero then (Silent, st)
      else
        let cand := candidate (Video.currentTime video) (duration st) in
        let overlaps := existsb (overlapsWith cand) (chunks st) in
        if overlaps then (Alert "Chunk overlaps another!", st)
        else if end_ cand - start cand <? minChunk
             then (Alert "Chunk too short!", st)
             else (Appended cand, setChunks (fun prev => prev ++ [cand]) st)
  end.

(** *** [handleTimelineClick] (lines 139-147) *)

Definition setVideo (video : Video.t) (st : State) : State :=
  {| videoRef := Some video;
     timelineRef := timelineRef st;
     duration := duration st;
     currentTime := currentTime st;
     chunks := chunks st;
     thumbnails := thumbnails st;
     loadingThumbs := loadingThumbs st |}.

(** The time a click at [clickX] on a timeline [timelineWidth] wide seeks
    to, [None] when the handler returns without seeking: the [duration <= 0]
    guard, [percent], [newTime] and the [isFinite(newTime)] test of the
    handler. *)
Definition pixelToTime (clickX timelineWidth dur : num) : option num :=
  if dur <=? zero then None
  else
    let percent := Math_max zero (Math_min one (clickX / timelineWidth)) in
    let newTime := percent * dur in
    if isFinite newTime then Some newTime else None.

Definition handleTimelineClick (clientX : num) (st : State) : State :=
  match timelineRef st, videoRef st with
  | Some rect, Some video =>
      let clickX := clientX - left rect in
      match pixelToTime clickX (width rect) (duration st) with
      | Some newTime => setVideo (Video.setCurrentTime newTime video) st
      | None => st
      end
  | _, _ => st
  end.

(** *** [seekTo] (lines 121-137)

    The promise of [seekTo] is settled by one of two callbacks: the
    [seeked] listener it registers, or the timer it arms.  Time is counted
    in milliseconds, the unit of [setTimeout]. *)

Inductive Promise : Type :=
| Pending
| Fulfilled
| Rejected (reason : string).

(** [resolve()] and [reject(e)] settle a pending promise and do nothing
    to a settled one. *)
Definition settle (outcome p : Promise) : Promise :=
  match p with
  | Pending => outcome
  | _ => p
  end.

Record Seek : Type := {
  element : Video.t;       (* the video *)
  onSeeked : nat;          (* the listener this call created *)
  timeout : option nat;    (* ms left on the armed timer; [None] once it
                              has fired or was cleared *)
  promise : Promise
}.

(** The executor of the promise: arm the timer, register [onSeeked], set
    the position.  [fn] is the function object allocated for [onSeeked]. *)
Definition seekTo (fn : nat) (video : Video.t) (time : num) : Seek :=
  {| element :=
       Video.setCurrentTime time (Video.addEventListener seeked fn video);
     onSeeked := fn;
     timeout := Some 5000;
     promise := Pending |}.

(** What happens while the caller is suspended: the video fires [seeked],
    or time passes. *)
Inductive Event : Type :=
| Seeked
| Elapse (ms : nat).

Definition step (s : Seek) (ev : Event) : Seek :=
  match ev with
  | Seeked =>
      if Video.registered seeked (onSeeked s) (element s) then
        (* onSeeked: clearTimeout, removeEventListener, resolve *)
        {| element := Video.removeEventListener seeked (onSeeked s) (element s);
           onSeeked := onSeeked s;
           timeout := None;
           promise := settle Fulfilled (promise s) |}
      else s
  | Elapse ms =>
      match timeout s with
      | Some remaining =>
          if Nat.leb remaining ms then
            (* the timer callback: removeEventListener, reject *)
            {| element :=
                 Video.removeEventListener seeked (onSeeked s) (element s);
               onSeeked := onSeeked s;
               timeout := None;
               promise := settle (Rejected "Seek timeout") (promise s) |}
          else
            {| element := element s;
               onSeeked := onSeeked s;
               timeout := Some (remaining - ms)%nat;
               promise := promise s |}
      | None => s
      end
  end.

Definition run (evs : list Event) (s : Seek) : Seek := fold_left step evs s.

(** Milliseconds passed in a run of events. *)
Fixpoint elapsed (evs : list Event) : nat :=
  match evs with
  | [] => 0
  | Seeked :: evs' => elapsed evs'
  | Elapse ms :: evs' => ms + elapsed evs'
  end.

(** *** [generateThumbnails] (lines 84-118) *)

(** What the batch meets in the browser: whether the canvas has a 2d
    context and, for the [i]-th sample, after how many milliseconds the
    video fires [seeked] ([None]: it never does) and the data URL of the
    captured frame ([None]: [drawImage] or [toDataURL] throws). *)
Record Env : Type := {
  context2d : bool;
  seekedAfter : nat -> option nat;
  frame : nat -> option string
}.

(** The events of one [await seekTo(...)]. *)
Definition schedule (after : option nat) : list Event :=
  match after with
  | Some ms => [Elapse ms; Seeked]
  | None => [Elapse 5000]
  end.

Inductive LogEntry : Type :=
| NoCanvasContext                                   (* "Could not get canvas context" *)
| ThumbnailError (time : num) (error : option string).
    (* "Error generating thumbnail at ${time}s:", with the message of a
       rejected seek, or [None] for an exception of the capture *)

Record Batch : Type := {
  source : Video.t;        (* the video *)
  allocated : nat;         (* function objects allocated so far *)
  thumbs : list string;
  console : list LogEntry; (* console.error *)
  sought : list num        (* the calls [seekTo(video, time)] made, in order *)
}.

(** The body of the loop for index [i]; [None] when an [await] never
    returns. *)
Definition sample (env : Env) (interval : num) (i : nat) (b : Batch)
  : option Batch :=
  let time := ofNat i * interval in
  let s := run (schedule (seekedAfter env i))
               (seekTo (allocated b) (source b) time) in
  match promise s with
  | Pending => None
  | Fulfilled =>
      (* the 100 ms delay, then drawImage and toDataURL *)
      match frame env i with
      | Some url =>
          Some {| source := element s;
                  allocated := S (allocated b);
                  thumbs := thumbs b ++ [url];
                  console := console b;
                  sought := sought b ++ [time] |}
      | None =>
          Some {| source := element s;
                  allocated := S (allocated b);
                  thumbs := thumbs b;
                  console := console b ++ [ThumbnailError time None];
                  sought := sought b ++ [time] |}
      end
  | Rejected reason =>
      Some {| source := element s;
              allocated := S (allocated b);
              thumbs := thumbs b;
              console := console b ++ [ThumbnailError time (Some reason)];
              sought := sought b ++ [time] |}
  end.

(** [for (let i = 0; i < count; i++)], with [n] iterations left. *)
Fixpoint loop (env : Env) (interval : num) (n i : nat) (b : Batch)
  : option Batch :=
  match n with
  | O => Some b
  | S n' =>
      match sample env interval i b with
      | Some b' => loop env interval n' (S i) b'
      | None => None
      end
  end.

Definition generateThumbnails (env : Env) (fn : nat) (video : Video.t)
    (count : nat) : option Batch :=
  let dur := Video.duration video in
  let interval := dur / ofNat count in
  if negb (context2d env) then
    Some {| source := video; allocated := fn; thumbs := [];
            console := [NoCanvasContext]; sought := [] |}
  else
    let originalTime := Video.currentTime video in
    match loop env interval count 0
               {| source := video; allocated := fn; thumbs := [];
                  console := []; sought := [] |} with
    | Some b =>
        (* Restore original time *)
        Some {| source := Video.setCurrentTime originalTime (source b);
                allocated := allocated b;
                thumbs := thumbs b;
                console := console b;
                sought := sought b |}
    | None => None
    end.

(** *** The effect: duration resolution (lines 23-81)

    The listeners of the effect are created in the render in which the
    effect runs, and the effect depends on [videoUrl] only: they read the
    [duration] of that render for as long as they are registered.  A page
    is the state of the component, that captured [duration] and the
    allocator of function objects. *)

Record Page : Type := {
  state : State;
  captured : num;
  functions : nat
}.

Definition setDuration (d : num) (st : State) : State :=
  {| videoRef := videoRef st;
     timelineRef := timelineRef st;
     duration := d;
     currentTime := currentTime st;
     chunks := chunks st;
     thumbnails := thumbnails st;
     loadingThumbs := loadingThumbs st |}.

Definition setCurrentTime (t : num) (st : State) : State :=
  {| videoRef := videoRef st;
     timelineRef := timelineRef st;
     duration := duration st;
     currentTime := t;
     chunks := chunks st;
     thumbnails := thumbnails st;
     loadingThumbs := loadingThumbs st |}.

Definition setThumbnails (ts : list string) (st : State) : State :=
  {| videoRef := videoRef st;
     timelineRef := timelineRef st;
     duration := duration st;
     currentTime := currentTime st;
     chunks := chunks st;
     thumbnails := ts;
     loadingThumbs := loadingThumbs st |}.

Definition setLoadingThumbs (b : bool) (st : State) : State :=
  {| videoRef := videoRef st;
     timelineRef := timelineRef st;
     duration := duration st;
     currentTime := currentTime st;
     chunks := chunks st;
     thumbnails := thumbnails st;
     loadingThumbs := b |}.

Definition processThumbnails (env : Env) (p : Page) : Page :=
  match videoRef (state p) with
  | None => p
  | Some video =>
      if isFinite (Video.duration video) && (Video.duration video >? zero)
      then
        let st := setLoadingThumbs true
                    (setDuration (Video.duration video) (state p)) in
        match generateThumbnails env (functions p) video thumbCount with
        | Some b =>
            {| state := setLoadingThumbs false
                          (setThumbnails (thumbs b) (setVideo (source b) st));
               captured := captured p;
               functions := allocated b |}
        | None =>
            {| state := st; captured := captured p; functions := functions p |}
        end
      else p
  end%bool.

Definition onLoadedMetadata := processThumbnails.
Definition onDurationChange := processThumbnails.

(** [video.seekable.end(0)], for [video.seekable.length > 0]. *)
Definition seekableDuration (video : Video.t) : option num :=
  match Video.seekable video with
  | [] => None
  | (_, e) :: _ => Some e
  end.

Definition onTimeUpdate (p : Page) : Page :=
  match videoRef (state p) with
  | None => p
  | Some video =>
      let st := setCurrentTime (Video.currentTime video) (state p) in
      let st' :=
        if negb (isFinite (captured p)) || (captured p =? zero) then
          if Video.currentTime video >? zero then
            match seekableDuration video with
            | Some seekableEnd => setDuration seekableEnd st
            | None => st
            end
          else st
        else st
      in
      {| state := st'; captured := captured p; functions := functions p |}
  end%bool.

(** The first render and its effect: the state variables at their initial
    values, the three listeners registered, and [processThumbnails] run if
    the metadata is already there. *)
Definition initialState (video : option Video.t) (timeline : option DOMRect)
  : State :=
  {| videoRef := video;
     timelineRef := timeline;
     duration := zero;
     currentTime := zero;
     chunks := [];
     thumbnails := [];
     loadingThumbs := false |}.

Definition mount (env : Env) (video : option Video.t)
    (timeline : option DOMRect) : Page :=
  match video with
  | None =>
      {| state := initialState None timeline; captured := zero; functions := 0 |}
  | Some v =>
      let v' := Video.addEventListener timeupdate 2
                  (Video.addEventListener durationchange 1
                     (Video.addEventListener loadedmetadata 0 v)) in
      let p := {| state := initialState (Some v') timeline;
                  captured := zero;
                  functions := 3 |} in
      if Nat.leb 1 (Video.readyState v) then processThumbnails env p else p
  end.

(** The browser changes the video element between two events. *)
Definition browser (update : Video.t -> Video.t) (p : Page) : Page :=
  match videoRef (state p) with
  | None => p
  | Some video =>
      {| state := setVideo (update video) (state p);
         captured := captured p;
         functions := functions p |}
  end.

(** *** The rendered geometry (lines 190-206) *)

(** The numbers of the [style] of a chunk and of the playhead; the style
    is the number followed by a percent sign. *)
Record ChunkStyle : Type := { chunkLeft : num; chunkWidth : num }.

Definition chunkStyle (dur : num) (chunk : Chunk) : ChunkStyle :=
  {| chunkLeft := (start chunk / dur) * ofNat 100;
     chunkWidth := ((end_ chunk - start chunk) / dur) * ofNat 100 |}.

Definition playheadLeft (st : State) : num :=
  (currentTime st / duration st) * ofNat 100.

Record Geometry : Type := {
  chunkStyles : list ChunkStyle;
  playhead : num
}.

Definition render (st : State) : Geometry :=
  {| chunkStyles := map (chunkStyle (duration st)) (chunks st);
     playhead := playheadLeft st |}.
End Page.

(** ** Properties *)

Section Properties.
Context {N : Number}.
Local Open Scope js_scope.

(** Two chunks do not overlap: one ends where or before the other starts. *)
Definition disjoint (A B : Chunk) : Prop :=
  (end_ A <=? start B) = true \/ (end_ B <=? start A) = true.

(** No two chunks of the array overlap.  The chunks are objects: [A] and
    [B] are the same chunk when they are the same element of the array. *)
Definition NoOverlap (cs : list Chunk) : Prop :=
  forall i j A B,
    nth_error cs i = Some A -> nth_error cs j = Some B ->
    i = j \/ disjoint A B.

(** The states of the component a session goes through.  Clicks on
    "Add Chunk" are the only calls of [setChunks]; whatever else happens
    (playback, seeking, a new duration, new thumbnails) leaves the chunks
    as they are. *)
Inductive reachable : State -> Prop :=
| reach_initial st :
    chunks st = [] -> reachable st
| reach_add st out st' :
    reachable st -> handleAddChunk st = (out, st') -> reachable st'
| reach_other st st' :
    reachable st -> chunks st' = chunks st -> reachable st'.

(** The two shapes of a seek: suspended with [r] ms left on the timer, and
    settled, the timer gone and the listener removed. *)
Definition suspended (fn : nat) (video : Video.t) (time : num) (r : nat) : Seek :=
  {| element :=
       Video.setCurrentTime time (Video.addEventListener seeked fn video);
     onSeeked := fn;
     timeout := Some r;
     promise := Pending |}.

Definition settled (fn : nat) (video : Video.t) (time : num)
    (outcome : Promise) : Seek :=
  {| element :=
       Video.removeEventListener seeked fn
         (Video.setCurrentTime time (Video.addEventListener seeked fn video));
     onSeeked := fn;
     timeout := None;
     promise := outcome |}.

(** Whether the [i]-th seek of a batch resolves, and the thumbnails the
    samples [indices] contribute: the frame of every sample whose seek resolves
    and whose capture does not throw. *)
Definition resolves (env : Env) (i : nat) : bool :=
  match seekedAfter env i with
  | Some ms => Nat.ltb ms 5000
  | None => false
  end.

Definition captured_frames (env : Env) (indices : list nat) : list string :=
  flat_map
    (fun i =>
       if resolves env i
       then match frame env i with Some url => [url] | None => [] end
       else [])
    indices.

(** The timestamps [i * (duration / count)], for [i] in [[0, count)]. *)
Definition timestamps (dur : num) (count : nat) : list num :=
  map (fun i => ofNat i * (dur / ofNat count)) (seq 0 count).

(** The [seeked] listeners of the video were allocated before [fn]. *)
Definition allocated_before (fn : nat) (video : Video.t) : Prop :=
  forall id, In (seeked, id) (Video.listeners video) -> id < fn.

(** The facts of arithmetic the properties of [pixelToTime] rest on: the
    order of the numbers, what [Math.min] and [Math.max] return, the exact
    products and quotients [1 * x], [0 * x], [0 / x] and [x / x], and the
    monotonicity of multiplication and division. *)
Record Arithmetic : Prop := {
  leb_trans : forall a b c, (a <=? b) = true -> (b <=? c) = true -> (a <=? c) = true;
  ltb_leb : forall a b, (a <? b) = true -> (a <=? b) = true;
  ltb_not_leb : forall a b, (a <? b) = true -> (b <=? a) = false;
  leb_self : forall a b, (a <=? b) = true -> (a <=? a) = true /\ (b <=? b) = true;
  leb_antisym : forall a b, (a <=? b) = true -> (b <=? a) = true -> (a =? b) = true;
  finite_self : forall a, isFinite a = true -> (a <=? a) = true;
  finite_between :
    forall a b t, isFinite a = true -> isFinite b = true ->
                  (a <=? t) = true -> (t <=? b) = true -> isFinite t = true;
  finite_positive :
    forall d, isFinite d = true -> (d <=? zero) = false -> (zero <? d) = true;
  zero_lt_one : (zero <? one) = true;
  zero_finite : isFinite zero = true;
  min_spec :
    forall a b, (a <=? a) = true -> (b <=? b) = true ->
                (Math_min a b = a /\ (a <=? b) = true) \/
                (Math_min a b = b /\ (b <=? a) = true);
  max_spec :
    forall a b, (a <=? a) = true -> (b <=? b) = true ->
                (Math_max a b = a /\ (b <=? a) = true) \/
                (Math_max a b = b /\ (a <=? b) = true);
  min_number :
    forall a b, (Math_min a b <=? Math_min a b) = true ->
                (a <=? a) = true /\ (b <=? b) = true;
  max_number :
    forall a b, (Math_max a b <=? Math_max a b) = true ->
                (a <=? a) = true /\ (b <=? b) = true;
  mul_one_l : forall d, one * d = d;
  mul_zero_l :
    forall d, isFinite d = true -> (zero <? d) = true -> zero * d = zero;
  mul_le_mono :
    forall a b d, (a <=? b) = true -> isFinite d = true -> (zero <? d) = true ->
                  (a * d <=? b * d) = true;
  mul_finite :
    forall a d, isFinite (a * d) = true ->
                isFinite a = true /\ isFinite d = true;
  div_zero_l : forall w, (zero <? w) = true -> zero / w = zero;
  div_self :
    forall w, isFinite w = true -> (zero <? w) = true -> w / w = one;
  div_le_mono :
    forall a b w, (a <=? b) = true -> isFinite w = true -> (zero <? w) = true ->
                  (a / w <=? b / w) = true
}.

(** The two facts of [Arithmetic] that speak of rounding: multiplying and
    dividing by a finite positive number keep the order. *)
Record Rounding : Prop := {
  round_mul_le :
    forall a b d, (a <=? b) = true -> isFinite d = true -> (zero <? d) = true ->
                  (a * d <=? b * d) = true;
  round_div_le :
    forall a b w, (a <=? b) = true -> isFinite w = true -> (zero <? w) = true ->
                  (a / w <=? b / w) = true
}.
End Properties.

Arguments Arithmetic N : clear implicits.
Arguments Rounding N : clear implicits.

(** A double that is a zero or a mantissa at an exponent. *)
Definition SFfinite (x : spec_float) : bool :=
  match x with
  | S754_zero _ | S754_finite _ _ _ => true
  | _ => false
  end.

(** Case analysis on the specification of a double, and on the comparisons
    of exponents and mantissas it leads to. *)
Ltac sf_cases :=
  repeat match goal with
         | x : spec_float |- _ => destruct x as [[]|[]| |[] ? ?]
         end;
  cbn in *; try discriminate; try reflexivity; auto.

Ltac compare_cases :=
  repeat match goal with
         | H : context [(?a ?= ?b)%Z] |- _ => destruct (Z.compare_spec a b)
         | |- context [(?a ?= ?b)%Z] => destruct (Z.compare_spec a b)
         | H : context [Pos.compare_cont Eq ?a ?b] |- _ =>
             change (Pos.compare_cont Eq a b) with (Pos.compare a b) in *;
             destruct (Pos.compare_spec a b)
         | |- context [Pos.compare_cont Eq ?a ?b] =>
             change (Pos.compare_cont Eq a b) with (Pos.compare a b) in *;
             destruct (Pos.compare_spec a b)
         end;
  cbn in *; subst; try discriminate; try reflexivity; try lia.

(** Case analysis on exact numbers: [NaN], the two infinities, a rational. *)
Create HintDb exact_arith.

Ltac exact_cases :=
  repeat match goal with
         | x : @num Exact.exact |- _ => destruct x as [|[]|?]
         | x : Exact.t |- _ => destruct x as [|[]|?]
         end;
  simpl in *; try discriminate; try reflexivity;
  try solve [intuition (auto with exact_arith; discriminate)].

(** ** Rounding to nearest

    The specification of the doubles rounds a quotient [N / G] of integers
    by shifting the numerator right, one bit at a time, while it keeps a
    round bit and a sticky bit.  [locate N G] is what the shifts arrive at,
    [rne N G] the rounded quotient and [finish s m e] the double of
    mantissa [m] at exponent [e], once normalised. *)

Section RoundingToNearest.
Local Open Scope Z_scope.

Definition locate (N G : Z) : shr_record :=
  {| shr_m := N / G;
     shr_r := G <=? 2 * (N mod G);
     shr_s := negb ((2 * (N mod G)) mod G =? 0) |}.

Definition rne (N G : Z) : Z :=
  round_nearest_even (shr_m (locate N G)) (loc_of_shr_record (locate N G)).

Definition rounds_up (N G : Z) : bool :=
  (G <? 2 * (N mod G)) || ((G =? 2 * (N mod G)) && Z.odd (N / G)).

Definition finish (s : bool) (m e : Z) : spec_float :=
  let '(mrs, e') := shr_fexp prec emax m e loc_Exact in
  match shr_m mrs with
  | Z0 => S754_zero s
  | Zpos p => if e' <=? emax - prec then S754_finite s p e' else S754_infinity s
  | Zneg _ => S754_nan
  end.

(** The exponent at which the specification computes a quotient. *)
Definition div_exponent (m1 m2 : positive) (e1 e2 : Z) : Z :=
  Z.min (Z.max (Zdigits2 (Z.pos m1) + e1 - (Zdigits2 (Z.pos m2) + e2) - 53) (-1074))
        (e1 - e2).

(** A double that is not below zero: a zero, a positive number or
    [+Infinity]. *)
Definition nonneg (x : spec_float) : bool :=
  match x with
  | S754_zero _ | S754_infinity false | S754_finite false _ _ => true
  | _ => false
  end.
End RoundingToNearest.

(** ** A session on the doubles

    A twenty-second video in the editor, and the states, environments and
    events the statements below are run on. *)

Section Session.
#[local] Existing Instance binary64.
#[local] Set Warnings "-inexact-float".

(** The listeners of the effect, as [mount] registers them. *)
Definition page_listeners : list Listener :=
  [(loadedmetadata, 0); (durationchange, 1); (timeupdate, 2)].

Definition video_at (time dur : float) : Video.t :=
  {| Video.currentTime := time;
     Video.duration := dur;
     Video.readyState := 4;
     Video.seekable := [(0%float, dur)];
     Video.listeners := page_listeners |}.

Definition timeline_rect : DOMRect := {| left := 8%float; width := 640%float |}.

(** The editor with the playhead at [time], the working duration [dur] and
    the chunks [cs]. *)
Definition editor (time dur : float) (cs : list Chunk) : State :=
  {| videoRef := Some (video_at time dur);
     timelineRef := Some timeline_rect;
     duration := dur;
     currentTime := time;
     chunks := cs;
     thumbnails := [];
     loadingThumbs := false |}.

Definition chunk_5_15 : Chunk := {| start := 5%float; end_ := 15%float |}.
Definition chunk_15_20 : Chunk := {| start := 15%float; end_ := 20%float |}.

(** A browser in which the seek of sample 3 never completes and the
    capture of sample 5 throws. *)
Definition flaky : Env :=
  {| context2d := true;
     seekedAfter := fun i => if Nat.eqb i 3 then None else Some 30;
     frame := fun i => if Nat.eqb i 5 then None else Some "data:image/jpeg"%string |}.


(** A thirty-second video on which another script listens to [seeked]. *)
Definition observed : Video.t :=
  {| Video.currentTime := 7%float;
     Video.duration := 30%float;
     Video.readyState := 4;
     Video.seekable := [(0%float, 30%float)];
     Video.listeners := page_listeners ++ [(seeked, 3)] |}.

(** A recording whose duration is reported as [Infinity], one second into
    playback, with 42.3 seconds seekable. *)
Definition recording : Video.t :=
  {| Video.currentTime := 1%float;
     Video.duration := infinity;
     Video.readyState := 4;
     Video.seekable := [(0%float, 42.3%float)];
     Video.listeners := [] |}.

(** A video that reports no duration yet. *)
Definition unloaded : Video.t :=
  {| Video.currentTime := 0%float;
     Video.duration := nan;
     Video.readyState := 0;
     Video.seekable := [];
     Video.listeners := [] |}.

(** The browser has read the metadata: thirty seconds. *)
Definition metadata_loaded (video : Video.t) : Video.t :=
  {| Video.currentTime := Video.currentTime video;
     Video.duration := 30%float;
     Video.readyState := 1;
     Video.seekable := [(0%float, 12%float)];
     Video.listeners := Video.listeners video |}.

(** A page whose working duration is thirty seconds, adopted from the
    metadata of the video. *)
Definition resolved_page : Page :=
  onLoadedMetadata flaky (browser metadata_loaded (mount flaky (Some unloaded) None)).

(** Playback has advanced to one second. *)
Definition playing : Page := browser (Video.setCurrentTime 1%float) resolved_page.
End Session.

(** ** The chunks *)

Section ChunkFacts.
Context {N : Number}.
Local Open Scope js_scope.

Lemma overlapsWith_false (cand c : Chunk) :
  overlapsWith cand c = false -> disjoint c cand.
Proof.
  unfold overlapsWith, disjoint, geb. intros H.
  apply negb_false_iff, orb_true_iff in H. tauto.
Qed.

Lemma overlapsWith_true (cand c : Chunk) :
  ~ disjoint cand c -> overlapsWith cand c = true.
Proof.
  unfold overlapsWith, disjoint, geb. intros H.
  apply negb_true_iff, orb_false_iff.
  split; apply not_true_is_false; tauto.
Qed.

Lemma disjoint_sym (A B : Chunk) : disjoint A B -> disjoint B A.
Proof. unfold disjoint. tauto. Qed.

Lemma NoOverlap_nil : NoOverlap [].
Proof. intros [|i] j A B H; discriminate. Qed.

Lemma nth_error_snoc (cs : list Chunk) (cand A : Chunk) (i : nat) :
  nth_error (cs ++ [cand]) i = Some A ->
  (i < List.length cs /\ nth_error cs i = Some A) \/
  (i = List.length cs /\ A = cand).
Proof.
  intros H. destruct (Nat.lt_ge_cases i (List.length cs)) as [Hlt | Hge].
  - left. split; [exact Hlt|]. now rewrite nth_error_app1 in H.
  - right. rewrite nth_error_app2 in H by exact Hge.
    destruct (i - List.length cs)%nat as [|k] eqn:E; simpl in H.
    + inversion H. split; [lia | reflexivity].
    + destruct k; discriminate.
Qed.

Lemma NoOverlap_snoc (cs : list Chunk) (cand : Chunk) :
  NoOverlap cs ->
  existsb (overlapsWith cand) cs = false ->
  NoOverlap (cs ++ [cand]).
Proof.
  intros Hcs Hnone i j A B HA HB.
  assert (Hold : forall k c, nth_error cs k = Some c -> disjoint c cand).
  { intros k c Hc. apply overlapsWith_false.
    destruct (overlapsWith cand c) eqn:E; [|reflexivity].
    rewrite <- Hnone. symmetry. apply existsb_exists.
    exists c. split; [exact (nth_error_In _ _ Hc) | exact E]. }
  apply nth_error_snoc in HA. apply nth_error_snoc in HB.
  destruct HA as [[_ HA] | [-> ->]], HB as [[_ HB] | [-> ->]].
  - exact (Hcs i j A B HA HB).
  - right. exact (Hold i A HA).
  - right. apply disjoint_sym. exact (Hold j B HB).
  - left. reflexivity.
Qed.

(** A click leaves the chunks as they are or appends the candidate, and it
    appends only a candidate that overlaps none of them. *)
Lemma handleAddChunk_chunks (st st' : State) (out : Outcome) :
  handleAddChunk st = (out, st') ->
  chunks st' = chunks st \/
  exists cand,
    chunks st' = chunks st ++ [cand] /\
    existsb (overlapsWith cand) (chunks st) = false.
Proof.
  unfold handleAddChunk. intros H.
  destruct (videoRef st) as [video|]; [|inversion H; auto].
  destruct (duration st <=? zero); [inversion H; auto|].
  destruct (existsb _ (chunks st)) eqn:Hover; [inversion H; auto|].
  destruct (_ <? minChunk); inversion H; subst; [auto|].
  right. eexists. split; [reflexivity | exact Hover].
Qed.

(** C1.  After any sequence of clicks on "Add Chunk", starting from no
    chunk and whatever else happens in between, no two chunks of the set
    overlap: for all chunks [A], [B] of the set, [A = B], or
    [A.end <= B.start], or [B.end <= A.start]. *)
Theorem chunks_never_overlap (st : State) :
  reachable st -> NoOverlap (chunks st).
Proof.
  induction 1 as [st Hnil | st out st' _ IH Hadd | st st' _ IH Hsame].
  - rewrite Hnil. apply NoOverlap_nil.
  - destruct (handleAddChunk_chunks _ Hadd) as [-> | (cand & -> & Hnone)].
    + exact IH.
    + now apply NoOverlap_snoc.
  - rewrite Hsame. exact IH.
Qed.

(** C3.  A click whose candidate overlaps one of the chunks, or is
    shorter than [minChunk], is rejected with an alert and changes nothing:
    the state after the click is the state before it. *)
Theorem overlapping_or_short_rejected (st : State) (video : Video.t) :
  videoRef st = Some video ->
  (duration st <=? zero) = false ->
  let cand := candidate (Video.currentTime video) (duration st) in
  ((exists c, In c (chunks st) /\ ~ disjoint cand c) ->
   handleAddChunk st = (Alert "Chunk overlaps another!", st)) /\
  ((end_ cand - start cand <? minChunk) = true ->
   (forall c, In c (chunks st) -> disjoint cand c) ->
   handleAddChunk st = (Alert "Chunk too short!", st)) /\
  ((end_ cand - start cand <? minChunk) = true ->
   exists message, handleAddChunk st = (Alert message, st)).
Proof.
  intros Hvideo Hdur cand. unfold handleAddChunk.
  rewrite Hvideo, Hdur. fold cand.
  split; [|split].
  - intros (c & Hc & Hover).
    assert (E : existsb (overlapsWith cand) (chunks st) = true).
    { apply existsb_exists. exists c. split; [exact Hc|].
      now apply overlapsWith_true. }
    now rewrite E.
  - intros Hshort Hfree.
    assert (E : existsb (overlapsWith cand) (chunks st) = false).
    { destruct (existsb _ _) eqn:E; [|reflexivity].
      apply existsb_exists in E. destruct E as (c & Hc & Hover).
      apply negb_true_iff, orb_false_iff in Hover.
      destruct (Hfree c Hc) as [H | H]; unfold geb in Hover;
        rewrite H in Hover; destruct Hover; discriminate. }
    now rewrite E, Hshort.
  - intros Hshort. rewrite Hshort.
    destruct (existsb _ _); eauto.
Qed.

(** C10.  With no video, or a duration that is [<= 0], a click on
    "Add Chunk" returns at once: no alert, no chunk, the state as it was. *)
Theorem no_duration_silent (st : State) :
  videoRef st = None \/ (duration st <=? zero) = true ->
  handleAddChunk st = (Silent, st).
Proof.
  unfold handleAddChunk. intros [-> | H]; [reflexivity|].
  rewrite H. now destruct (videoRef st).
Qed.

(** A click that appends produced the candidate of the formula and put
    it after the chunks that were there; nothing else of the state moved. *)
Lemma handleAddChunk_appended (st st' : State) (c : Chunk) :
  handleAddChunk st = (Appended c, st') ->
  exists video,
    videoRef st = Some video /\
    c = {| start := Video.currentTime video;
           end_ := Math_min (Video.currentTime video + maxChunk) (duration st) |} /\
    st' = setChunks (fun prev => prev ++ [c]) st.
Proof.
  unfold handleAddChunk. intros H.
  destruct (videoRef st) as [video|]; [|discriminate].
  destruct (duration st <=? zero); [discriminate|].
  destruct (existsb _ _); [discriminate|].
  destruct (_ <? minChunk); [discriminate|].
  inversion H; subst. exists video. auto.
Qed.

(** A click succeeds when there is a video, the duration is not [<= 0],
    the candidate overlaps no chunk and is not shorter than [minChunk]. *)
Lemma handleAddChunk_succeeds (st : State) (video : Video.t) :
  videoRef st = Some video ->
  (duration st <=? zero) = false ->
  let cand := candidate (Video.currentTime video) (duration st) in
  existsb (overlapsWith cand) (chunks st) = false ->
  (end_ cand - start cand <? minChunk) = false ->
  handleAddChunk st = (Appended cand, setChunks (fun prev => prev ++ [cand]) st).
Proof.
  intros Hvideo Hdur cand Hfree Hlong. unfold handleAddChunk.
  rewrite Hvideo, Hdur. fold cand. now rewrite Hfree, Hlong.
Qed.
End ChunkFacts.


(** ** Listeners *)

Section ListenerFacts.
Context {N : Number}.

Lemma EventType_eqb_eq (a b : EventType) : EventType_eqb a b = true <-> a = b.
Proof. destruct a, b; simpl; split; congruence. Qed.

Lemma Listener_eqb_eq (a b : Listener) : Listener_eqb a b = true <-> a = b.
Proof.
  destruct a as [ta fa], b as [tb fb]. unfold Listener_eqb. simpl.
  rewrite andb_true_iff, EventType_eqb_eq, Nat.eqb_eq.
  split; [intros [-> ->]; reflexivity | intros H; inversion H; auto].
Qed.

Lemma Listener_eqb_refl (a : Listener) : Listener_eqb a a = true.
Proof. now apply Listener_eqb_eq. Qed.

Lemma registered_iff (type : EventType) (fn : nat) (video : Video.t) :
  Video.registered type fn video = true <-> In (type, fn) (Video.listeners video).
Proof.
  unfold Video.registered. rewrite existsb_exists. split.
  - intros (l & Hl & E). apply Listener_eqb_eq in E. now subst.
  - intros H. exists (type, fn). split; [exact H | apply Listener_eqb_refl].
Qed.

Lemma registered_add (type : EventType) (fn : nat) (video : Video.t) :
  Video.registered type fn (Video.addEventListener type fn video) = true.
Proof.
  unfold Video.addEventListener.
  destruct (existsb _ (Video.listeners video)) eqn:E; [exact E|].
  apply registered_iff. simpl. apply in_or_app. right. now left.
Qed.

Lemma registered_remove (type : EventType) (fn : nat) (video : Video.t) :
  Video.registered type fn (Video.removeEventListener type fn video) = false.
Proof.
  apply not_true_is_false. rewrite registered_iff. simpl.
  rewrite filter_In, Listener_eqb_refl. intros [_ H]. discriminate.
Qed.

Lemma registered_setCurrentTime (type : EventType) (fn : nat) (t : num)
    (video : Video.t) :
  Video.registered type fn (Video.setCurrentTime t video) =
  Video.registered type fn video.
Proof. reflexivity. Qed.

Lemma filter_fresh (l : Listener) (ls : list Listener) :
  ~ In l ls -> filter (fun x => negb (Listener_eqb l x)) ls = ls.
Proof.
  induction ls as [|x ls IH]; intros Hfresh; simpl; [reflexivity|].
  destruct (Listener_eqb l x) eqn:E.
  - apply Listener_eqb_eq in E. subst. exfalso. apply Hfresh. now left.
  - simpl. rewrite IH; [reflexivity|]. intros H. apply Hfresh. now right.
Qed.

(** Registering a new listener and removing it again leaves the video as
    it was. *)
Lemma remove_add_fresh (type : EventType) (fn : nat) (video : Video.t) :
  Video.registered type fn video = false ->
  Video.removeEventListener type fn (Video.addEventListener type fn video)
  = video.
Proof.
  intros Hfresh. unfold Video.addEventListener.
  unfold Video.registered in Hfresh. rewrite Hfresh.
  unfold Video.removeEventListener, Video.setListeners. simpl.
  rewrite filter_app. simpl. rewrite Listener_eqb_refl. simpl.
  rewrite app_nil_r, filter_fresh.
  - now destruct video.
  - intros H. apply registered_iff in H. unfold Video.registered in H.
    congruence.
Qed.

Lemma remove_setCurrentTime (type : EventType) (fn : nat) (t : num)
    (video : Video.t) :
  Video.removeEventListener type fn (Video.setCurrentTime t video) =
  Video.setCurrentTime t (Video.removeEventListener type fn video).
Proof. reflexivity. Qed.

Lemma setCurrentTime_twice (t t' : num) (video : Video.t) :
  Video.setCurrentTime t (Video.setCurrentTime t' video) =
  Video.setCurrentTime t video.
Proof. reflexivity. Qed.

Lemma setCurrentTime_same (video : Video.t) :
  Video.setCurrentTime (Video.currentTime video) video = video.
Proof. now destruct video. Qed.
End ListenerFacts.

(** ** Seeking *)

Section SeekFacts.
Context {N : Number}.
Variables (fn : nat) (video : Video.t) (time : num).

Local Abbreviation waiting := (suspended fn video time).
Local Abbreviation finished := (settled fn video time).

Lemma seekTo_suspended : seekTo fn video time = waiting 5000.
Proof. reflexivity. Qed.

Lemma step_settled (outcome : Promise) (ev : Event) :
  step (finished outcome) ev = finished outcome.
Proof.
  destruct ev; simpl; [|reflexivity].
  now rewrite registered_remove.
Qed.

Lemma run_settled (outcome : Promise) (evs : list Event) :
  run evs (finished outcome) = finished outcome.
Proof.
  unfold run. induction evs as [|ev evs IH]; simpl; [reflexivity|].
  now rewrite step_settled.
Qed.

Lemma step_seeked (r : nat) : step (waiting r) Seeked = finished Fulfilled.
Proof.
  simpl. rewrite registered_setCurrentTime, registered_add. reflexivity.
Qed.

Lemma step_elapse (r ms : nat) :
  step (waiting r) (Elapse ms) =
  if Nat.leb r ms then finished (Rejected "Seek timeout")
  else waiting (r - ms).
Proof. simpl. now destruct (Nat.leb r ms). Qed.

Lemma run_cons (ev : Event) (evs : list Event) (s : Seek) :
  run (ev :: evs) s = run evs (step s ev).
Proof. reflexivity. Qed.

Lemma run_app (pre post : list Event) (s : Seek) :
  run (pre ++ post) s = run post (run pre s).
Proof. apply fold_left_app. Qed.

(** While the video has not fired [seeked] and the timer has time left,
    the seek stays waiting. *)
Lemma run_suspended (evs : list Event) : forall r,
  ~ In Seeked evs -> elapsed evs < r ->
  run evs (waiting r) = waiting (r - elapsed evs).
Proof.
  induction evs as [|[|ms] evs IH]; intros r Hno Hlt.
  - simpl. now rewrite Nat.sub_0_r.
  - exfalso. apply Hno. now left.
  - simpl in Hlt. rewrite run_cons, step_elapse.
    destruct (Nat.leb_spec r ms); [lia|].
    rewrite IH; [|intros H'; apply Hno; now right|lia].
    simpl. f_equal. lia.
Qed.

(** Once the timer has run out with no [seeked] event, the promise is
    rejected, and stays so. *)
Lemma run_timeout (pre post : list Event) : forall r,
  0 < r -> ~ In Seeked pre -> r <= elapsed pre ->
  run (pre ++ post) (waiting r) = finished (Rejected "Seek timeout").
Proof.
  induction pre as [|[|ms] pre IH]; intros r Hr Hno Hle.
  - simpl in Hle. lia.
  - exfalso. apply Hno. now left.
  - simpl in Hle. simpl app. rewrite run_cons, step_elapse.
    destruct (Nat.leb_spec r ms).
    + apply run_settled.
    + apply IH; [lia | intros H'; apply Hno; now right | lia].
Qed.

(** A [seeked] event that comes while the timer has time left fulfils the
    promise, and it stays so. *)
Lemma run_seeked (pre post : list Event) (r : nat) :
  ~ In Seeked pre -> elapsed pre < r ->
  run (pre ++ Seeked :: post) (waiting r) = finished Fulfilled.
Proof.
  intros Hno Hlt. rewrite run_app, run_suspended by assumption.
  rewrite run_cons, step_seeked. apply run_settled.
Qed.

Lemma run_pending_iff (evs : list Event) : forall r,
  0 < r ->
  promise (run evs (waiting r)) = Pending <->
  ~ In Seeked evs /\ elapsed evs < r.
Proof.
  induction evs as [|[|ms] evs IH]; intros r Hr.
  - simpl. intuition.
  - rewrite run_cons, step_seeked, run_settled. simpl.
    split; [discriminate | intros [H _]; exfalso; apply H; now left].
  - rewrite run_cons, step_elapse.
    destruct (Nat.leb_spec r ms).
    + rewrite run_settled. simpl. split; [discriminate | lia].
    + rewrite IH by lia. simpl.
      split; intros [Hno Hlt]; (split; [|lia]).
      * intros [H' | H']; [discriminate | auto].
      * intros H'. apply Hno. now right.
Qed.

Lemma run_position (evs : list Event) : forall r,
  Video.currentTime (element (run evs (waiting r))) = time.
Proof.
  induction evs as [|[|ms] evs IH]; intros r.
  - reflexivity.
  - now rewrite run_cons, step_seeked, run_settled.
  - rewrite run_cons, step_elapse.
    destruct (Nat.leb r ms); [now rewrite run_settled | apply IH].
Qed.

Lemma settled_fresh (outcome : Promise) :
  Video.registered seeked fn video = false ->
  finished outcome =
  {| element := Video.setCurrentTime time video;
     onSeeked := fn;
     timeout := None;
     promise := outcome |}.
Proof.
  intros Hfresh. unfold settled.
  now rewrite remove_setCurrentTime, remove_add_fresh.
Qed.

(** C9.  [seekTo(video, time)] sets the position to [time] and stays
    waiting exactly as long as the video has not fired [seeked] and fewer
    than 5000 ms have passed.  When the 5000 ms pass first, the promise is
    rejected with "Seek timeout", the listener is removed, nothing is armed
    any more, and no later event changes that: there is no second attempt.
    When [seeked] comes first, the promise is fulfilled.  In both outcomes
    the video is what it was but for its position, which is [time]. *)
Theorem seekTo_resolves_or_times_out :
  Video.registered seeked fn video = false ->
  (forall evs,
     Video.currentTime (element (run evs (seekTo fn video time))) = time) /\
  (forall evs,
     promise (run evs (seekTo fn video time)) = Pending <->
     ~ In Seeked evs /\ elapsed evs < 5000) /\
  (forall pre post,
     ~ In Seeked pre -> 5000 <= elapsed pre ->
     run (pre ++ post) (seekTo fn video time) =
     {| element := Video.setCurrentTime time video;
        onSeeked := fn;
        timeout := None;
        promise := Rejected "Seek timeout" |}) /\
  (forall pre post,
     ~ In Seeked pre -> elapsed pre < 5000 ->
     run (pre ++ Seeked :: post) (seekTo fn video time) =
     {| element := Video.setCurrentTime time video;
        onSeeked := fn;
        timeout := None;
        promise := Fulfilled |}).
Proof.
  intros Hfresh. rewrite seekTo_suspended. split; [|split; [|split]].
  - intros evs. apply run_position.
  - intros evs. apply run_pending_iff. lia.
  - intros pre post Hno Hle.
    rewrite run_timeout by (assumption || lia). now apply settled_fresh.
  - intros pre post Hno Hlt.
    rewrite run_seeked by assumption. now apply settled_fresh.
Qed.
End SeekFacts.


(** ** Thumbnails *)

Section ThumbnailFacts.
Context {N : Number}.
Variable env : Env.

(** The awaited seek of sample [i] always settles: fulfilled if the video
    fires [seeked] within the 5000 ms, rejected otherwise. *)
Lemma await_settles (fn : nat) (video : Video.t) (time : num) (i : nat) :
  run (schedule (seekedAfter env i)) (seekTo fn video time) =
  settled fn video time
    (if resolves env i then Fulfilled else Rejected "Seek timeout").
Proof.
  unfold resolves, schedule. rewrite seekTo_suspended.
  destruct (seekedAfter env i) as [ms|].
  - destruct (Nat.ltb_spec ms 5000) as [Hlt | Hge].
    + apply (run_seeked fn video time [Elapse ms] []); simpl;
        [intros [H | []]; discriminate | lia].
    + apply (run_timeout fn video time [Elapse ms] [Seeked]); simpl;
        [lia | intros [H | []]; discriminate | lia].
  - apply (run_timeout fn video time [Elapse 5000] []); simpl;
      [lia | intros [H | []]; discriminate | lia].
Qed.

(** One sample: the seek is made, the listener comes and goes, and the
    sample adds its frame or logs its failure. *)
Lemma sample_runs (interval : num) (i : nat) (b : Batch) :
  exists b',
    sample env interval i b = Some b' /\
    source b' =
      Video.removeEventListener seeked (allocated b)
        (Video.setCurrentTime (ofNat i * interval)%js
           (Video.addEventListener seeked (allocated b) (source b))) /\
    allocated b' = S (allocated b) /\
    sought b' = sought b ++ [(ofNat i * interval)%js] /\
    thumbs b' = thumbs b ++ captured_frames env [i] /\
    List.length (thumbs b') + List.length (console b') =
    S (List.length (thumbs b) + List.length (console b)).
Proof.
  unfold sample, captured_frames. rewrite await_settles. simpl.
  destruct (resolves env i); simpl.
  - destruct (frame env i) as [url|]; simpl; eexists;
      (split; [reflexivity|]); simpl; repeat split;
      rewrite ?app_nil_r, ?length_app; simpl; try reflexivity; lia.
  - eexists. split; [reflexivity|]. simpl. repeat split;
      rewrite ?app_nil_r, ?length_app; simpl; try reflexivity; lia.
Qed.

Lemma captured_frames_app (l l' : list nat) :
  captured_frames env (l ++ l') = captured_frames env l ++ captured_frames env l'.
Proof. apply flat_map_app. Qed.


(** The loop visits the indices in increasing order, seeks to
    [i * interval] at each, and every sample counts once: as a thumbnail or
    as a logged failure. *)
Lemma loop_runs (interval : num) (n : nat) : forall i b,
  exists b',
    loop env interval n i b = Some b' /\
    allocated b' = allocated b + n /\
    sought b' = sought b ++ map (fun k => (ofNat k * interval)%js) (seq i n) /\
    thumbs b' = thumbs b ++ captured_frames env (seq i n) /\
    List.length (thumbs b') + List.length (console b') =
    List.length (thumbs b) + List.length (console b) + n.
Proof.
  induction n as [|n IH]; intros i b; simpl.
  - exists b. rewrite !app_nil_r. repeat split; lia.
  - destruct (sample_runs interval i b)
      as (b1 & -> & _ & Halloc & Hsought & Hthumbs & Hcount).
    destruct (IH (S i) b1) as (b' & -> & Halloc' & Hsought' & Hthumbs' & Hcount').
    exists b'. split; [reflexivity|].
    split; [lia|]. split; [|split; [|lia]].
    + rewrite Hsought', Hsought, <- app_assoc. reflexivity.
    + rewrite Hthumbs', Hthumbs, <- app_assoc.
      now rewrite <- captured_frames_app.
Qed.




(** The batch keeps the video as it is but for its position, and it
    allocates its listeners upwards. *)
Lemma sample_frame (video : Video.t) (fn : nat) (interval : num) (i : nat)
    (b b' : Batch) :
  allocated_before fn video ->
  fn <= allocated b ->
  Video.setCurrentTime (Video.currentTime video) (source b) = video ->
  sample env interval i b = Some b' ->
  fn <= allocated b' /\
  Video.setCurrentTime (Video.currentTime video) (source b') = video.
Proof.
  intros Hbefore Hle Hsame Hsample.
  destruct (sample_runs interval i b) as (b1 & E & Hsource & Halloc & _).
  rewrite E in Hsample. inversion Hsample; subst b1. clear Hsample E.
  split; [lia|].
  rewrite Hsource, remove_setCurrentTime, remove_add_fresh.
  - now rewrite setCurrentTime_twice.
  - apply not_true_is_false. rewrite registered_iff. intros Hin.
    assert (Hlisteners : Video.listeners (source b) = Video.listeners video)
      by (now rewrite <- Hsame).
    rewrite Hlisteners in Hin. apply Hbefore in Hin. lia.
Qed.

Lemma loop_frame (video : Video.t) (fn : nat) (interval : num) (n : nat) :
  forall i b b',
  allocated_before fn video ->
  fn <= allocated b ->
  Video.setCurrentTime (Video.currentTime video) (source b) = video ->
  loop env interval n i b = Some b' ->
  Video.setCurrentTime (Video.currentTime video) (source b') = video.
Proof.
  induction n as [|n IH]; intros i b b' Hbefore Hle Hsame Hloop; simpl in Hloop.
  - now inversion Hloop; subst.
  - destruct (sample env interval i b) as [b1|] eqn:E; [|discriminate].
    destruct (@sample_frame video fn interval i b b1 Hbefore Hle Hsame E)
      as [Hle1 Hsame1].
    exact (IH (S i) b1 b' Hbefore Hle1 Hsame1 Hloop).
Qed.

(** C6.  [generateThumbnails] returns, and the video it leaves is the
    video it was given: the position is the position at entry, whether the
    samples succeeded or failed, and the duration, the ready state, the
    seekable ranges and the listeners are untouched. *)
Theorem generateThumbnails_restores (fn : nat) (video : Video.t) (count : nat) :
  allocated_before fn video ->
  exists b,
    generateThumbnails env fn video count = Some b /\ source b = video.
Proof.
  intros Hbefore. unfold generateThumbnails.
  destruct (context2d env); simpl.
  - destruct (loop_runs (Video.duration video / ofNat count)%js count 0
                {| source := video; allocated := fn; thumbs := [];
                   console := []; sought := [] |})
      as (b & Hloop & _).
    rewrite Hloop. eexists. split; [reflexivity|]. simpl.
    apply (loop_frame (video := video) (fn := fn)) in Hloop;
      [|exact Hbefore | simpl; lia | apply setCurrentTime_same].
    exact Hloop.
  - eexists. split; reflexivity.
Qed.
End ThumbnailFacts.


(** ** Timeline clicks *)

Section TimelineFacts.
Context {N : Number}.
Local Open Scope js_scope.
Hypothesis A : Arithmetic N.

Lemma zero_number : (zero <=? zero) = true.
Proof. apply (finite_self A), (zero_finite A). Qed.

Lemma zero_le_one : (zero <=? one) = true.
Proof. apply (ltb_leb A), (zero_lt_one A). Qed.

Lemma one_number : (one <=? one) = true.
Proof. apply (leb_self A zero one), zero_le_one. Qed.

Lemma positive_not_le (d : num) : (zero <? d) = true -> (d <=? zero) = false.
Proof. apply (ltb_not_leb A). Qed.

(** [Math.min(c, _)] and [Math.max(c, _)] are monotone. *)
Lemma min_mono (c a b : num) :
  (c <=? c) = true -> (a <=? b) = true ->
  (Math_min c a <=? Math_min c b) = true.
Proof.
  intros Hc Hab. destruct (leb_self A _ _ Hab) as [Ha Hb].
  destruct (min_spec A c a Hc Ha) as [[-> Hca] | [-> Hac]],
           (min_spec A c b Hc Hb) as [[-> Hcb] | [-> Hbc]]; auto.
  - exact (leb_trans A _ _ _ Hca Hab).
Qed.

Lemma max_mono (c a b : num) :
  (c <=? c) = true -> (a <=? b) = true ->
  (Math_max c a <=? Math_max c b) = true.
Proof.
  intros Hc Hab. destruct (leb_self A _ _ Hab) as [Ha Hb].
  destruct (max_spec A c a Hc Ha) as [[-> Hac] | [-> Hca]],
           (max_spec A c b Hc Hb) as [[-> Hbc] | [-> Hcb]]; auto.
  - exact (leb_trans A _ _ _ Hab Hbc).
Qed.

(** [percent] is a number between 0 and 1 as soon as the quotient is a
    number. *)
Lemma percent_range (q : num) :
  (q <=? q) = true ->
  (zero <=? Math_max zero (Math_min one q)) = true /\
  (Math_max zero (Math_min one q) <=? one) = true.
Proof.
  intros Hq.
  assert (Hm : (Math_min one q <=? Math_min one q) = true /\
               (Math_min one q <=? one) = true).
  { destruct (min_spec A one q one_number Hq) as [[-> _] | [-> H]];
      auto using one_number. }
  destruct Hm as [Hm Hm1].
  destruct (max_spec A zero _ zero_number Hm) as [[-> _] | [-> H]];
    auto using zero_number, zero_le_one.
Qed.

(** For a quotient between 0 and 1 the clamp changes nothing, up to the
    sign of zero. *)
Lemma percent_inside (q : num) :
  (zero <=? q) = true -> (q <=? one) = true ->
  (Math_max zero (Math_min one q) <=? q) = true /\
  (q <=? Math_max zero (Math_min one q)) = true.
Proof.
  intros H0 H1. destruct (leb_self A _ _ H0) as [_ Hq].
  assert (Hm : (Math_min one q <=? q) = true /\ (q <=? Math_min one q) = true).
  { destruct (min_spec A one q one_number Hq) as [[-> H] | [-> _]]; auto. }
  destruct Hm as [Hmq Hqm]. destruct (leb_self A _ _ Hmq) as [Hm _].
  destruct (max_spec A zero _ zero_number Hm) as [[-> H] | [-> _]]; auto.
  split; [exact H0 | exact (leb_trans A _ _ _ Hqm H)].
Qed.

(** The product of a [percent] between 0 and 1 and a finite positive
    duration lies between 0 and the duration, and is finite. *)
Lemma newTime_range (p d : num) :
  (zero <=? p) = true -> (p <=? one) = true ->
  isFinite d = true -> (zero <? d) = true ->
  (zero <=? p * d) = true /\ (p * d <=? d) = true /\ isFinite (p * d) = true.
Proof.
  intros H0 H1 Hfin Hpos.
  pose proof (mul_le_mono A _ _ d H0 Hfin Hpos) as Hlo.
  pose proof (mul_le_mono A _ _ d H1 Hfin Hpos) as Hhi.
  rewrite (mul_zero_l A) in Hlo by assumption.
  rewrite (mul_one_l A) in Hhi.
  repeat split; auto.
  exact (finite_between A zero d _ (zero_finite A) Hfin Hlo Hhi).
Qed.

(** A click that seeks found a finite positive duration, and a quotient
    that is a number. *)
Lemma pixelToTime_some (x w d t : num) :
  pixelToTime x w d = Some t ->
  isFinite d = true /\ (zero <? d) = true /\ (x / w <=? x / w) = true /\
  t = Math_max zero (Math_min one (x / w)) * d.
Proof.
  unfold pixelToTime. intros H.
  destruct (d <=? zero) eqn:Hguard; [discriminate|].
  destruct (isFinite _) eqn:Hfin; [|discriminate].
  inversion H; subst t. clear H.
  destruct (mul_finite A _ _ Hfin) as [Hp Hd].
  repeat split; auto.
  - now apply (finite_positive A).
  - apply (finite_self A), (max_number A) in Hp.
    destruct Hp as [_ Hm]. now apply (min_number A) in Hm.
Qed.

Lemma pixelToTime_defined (x w d : num) :
  isFinite d = true -> (zero <? d) = true -> (x / w <=? x / w) = true ->
  pixelToTime x w d = Some (Math_max zero (Math_min one (x / w)) * d).
Proof.
  intros Hfin Hpos Hq. unfold pixelToTime.
  rewrite (positive_not_le _ Hpos).
  destruct (percent_range _ Hq) as [H0 H1].
  destruct (newTime_range _ _ H0 H1 Hfin Hpos) as (_ & _ & ->). reflexivity.
Qed.

(** For every number system that satisfies the facts of arithmetic:
    [pixelToTime] is the map [clickX / timelineWidth * duration], clamped
    to [[0, duration]], and a click does nothing when the duration is not
    [> 0]. *)
Lemma pixelToTime_from_arithmetic :
  (forall x w d, (zero <? d) = false -> pixelToTime x w d = None) /\
  (forall clientX st,
     (zero <? duration st) = false -> handleTimelineClick clientX st = st) /\
  (forall w d,
     (zero <? w) = true -> isFinite d = true -> (zero <? d) = true ->
     pixelToTime zero w d = Some zero) /\
  (forall w d,
     isFinite w = true -> (zero <? w) = true ->
     isFinite d = true -> (zero <? d) = true ->
     pixelToTime w w d = Some d) /\
  (forall x w d,
     isFinite w = true -> (zero <? w) = true ->
     isFinite d = true -> (zero <? d) = true ->
     (zero <=? x) = true -> (x <=? w) = true ->
     exists t, pixelToTime x w d = Some t /\ (t =? x / w * d) = true) /\
  (forall x w d,
     isFinite w = true -> (zero <? w) = true ->
     isFinite d = true -> (zero <? d) = true ->
     (x <=? x) = true ->
     exists t, pixelToTime x w d = Some t) /\
  (forall x w d t,
     pixelToTime x w d = Some t ->
     (zero <=? t) = true /\ (t <=? d) = true) /\
  (forall x x' w d t t',
     isFinite w = true -> (zero <? w) = true ->
     (x <=? x') = true ->
     pixelToTime x w d = Some t -> pixelToTime x' w d = Some t' ->
     (t <=? t') = true).
Proof.
  assert (Hnoop : forall x w d, (zero <? d) = false -> pixelToTime x w d = None).
  { intros x w d Hd.
    destruct (pixelToTime x w d) as [t|] eqn:E; [|reflexivity].
    apply pixelToTime_some in E. destruct E as (_ & Hpos & _). congruence. }
  split; [exact Hnoop|]. split; [|split; [|split; [|split; [|split; [|split]]]]].
  - intros clientX st Hd. unfold handleTimelineClick.
    destruct (timelineRef st) as [rect|]; [|reflexivity].
    destruct (videoRef st) as [video|]; [|reflexivity].
    now rewrite Hnoop.
  - intros w d Hw Hfin Hpos.
    rewrite pixelToTime_defined; auto.
    + rewrite (div_zero_l A) by assumption.
      destruct (min_spec A one zero one_number zero_number) as [[_ H] | [-> _]].
      { pose proof (ltb_not_leb A _ _ (zero_lt_one A)). congruence. }
      destruct (max_spec A zero zero zero_number zero_number) as [[-> _] | [-> _]];
        now rewrite (mul_zero_l A).
    + rewrite (div_zero_l A) by assumption. apply zero_number.
  - intros w d Hwfin Hw Hfin Hpos.
    rewrite pixelToTime_defined; auto.
    + rewrite (div_self A) by assumption.
      destruct (min_spec A one one one_number one_number) as [[-> _] | [-> _]];
        destruct (max_spec A zero one zero_number one_number) as [[_ H] | [-> _]];
        try (pose proof (ltb_not_leb A _ _ (zero_lt_one A)); congruence);
        now rewrite (mul_one_l A).
    + rewrite (div_self A) by assumption. apply one_number.
  - intros x w d Hwfin Hw Hfin Hpos H0 H1.
    pose proof (div_le_mono A _ _ w H0 Hwfin Hw) as Hq0.
    pose proof (div_le_mono A _ _ w H1 Hwfin Hw) as Hq1.
    rewrite (div_zero_l A) in Hq0 by assumption.
    rewrite (div_self A) in Hq1 by assumption.
    destruct (leb_self A _ _ Hq0) as [_ Hq].
    eexists. split; [now apply pixelToTime_defined|].
    destruct (percent_inside _ Hq0 Hq1) as [Hle Hge].
    apply (leb_antisym A); now apply (mul_le_mono A).
  - intros x w d Hwfin Hw Hfin Hpos Hx.
    eexists. apply pixelToTime_defined; auto.
    exact (div_le_mono A _ _ w Hx Hwfin Hw).
  - intros x w d t E.
    apply pixelToTime_some in E. destruct E as (Hfin & Hpos & Hq & ->).
    destruct (percent_range _ Hq) as [H0 H1].
    destruct (newTime_range _ _ H0 H1 Hfin Hpos) as (Hlo & Hhi & _). auto.
  - intros x x' w d t t' Hwfin Hw Hxx' E E'.
    apply pixelToTime_some in E, E'.
    destruct E as (Hfin & Hpos & _ & ->), E' as (_ & _ & _ & ->).
    apply (mul_le_mono A); auto.
    apply max_mono; [apply zero_number|].
    apply min_mono; [apply one_number|].
    now apply (div_le_mono A).
Qed.
End TimelineFacts.


(** ** Exact arithmetic satisfies the facts of arithmetic *)

Section ExactFacts.
Local Open Scope Qc_scope.

Lemma Qc_leb_le (p q : Qc) : Exact.Qc_leb p q = true <-> p <= q.
Proof.
  unfold Exact.Qc_leb. rewrite Qcle_alt.
  destruct (p ?= q); split; congruence.
Qed.

Lemma Qc_ltb_lt (p q : Qc) : Exact.Qc_ltb p q = true <-> p < q.
Proof.
  unfold Exact.Qc_ltb. rewrite Qclt_alt.
  destruct (p ?= q); split; congruence.
Qed.

Lemma Qc_eqb_eq (p q : Qc) : Exact.Qc_eqb p q = true <-> p = q.
Proof.
  unfold Exact.Qc_eqb. rewrite Qceq_alt.
  destruct (p ?= q); split; congruence.
Qed.

Lemma Qc_leb_false (p q : Qc) : Exact.Qc_leb p q = false <-> q < p.
Proof.
  rewrite <- not_true_iff_false, Qc_leb_le. split.
  - apply Qcnot_le_lt.
  - intros H H'. exact (Qclt_not_le _ _ H H').
Qed.

Lemma Qc_ltb_false (p q : Qc) : Exact.Qc_ltb p q = false <-> q <= p.
Proof.
  rewrite <- not_true_iff_false, Qc_ltb_lt. split.
  - apply Qcnot_lt_le.
  - intros H H'. exact (Qcle_not_lt _ _ H H').
Qed.

Lemma sign_positive (q : Qc) : Q2Qc 0 < q -> Exact.sign q = Some false.
Proof.
  intros H. unfold Exact.sign.
  destruct (q ?= Q2Qc 0) eqn:E; [| |reflexivity].
  - apply Qceq_alt in E. subst. exfalso. exact (Qclt_not_le _ _ H (Qcle_refl _)).
  - apply Qclt_alt in E. exfalso.
    exact (Qclt_not_le _ _ H (Qclt_le_weak _ _ E)).
Qed.

Lemma positive_nonzero (q : Qc) : Q2Qc 0 < q -> q <> Q2Qc 0.
Proof.
  intros H ->. exact (Qclt_not_le _ _ H (Qcle_refl _)).
Qed.

Lemma Qcdiv_le_compat_r (p r q : Qc) : Q2Qc 0 < q -> p <= r -> p / q <= r / q.
Proof.
  intros Hq Hpr. apply Qcmult_lt_0_le_reg_r with q; [exact Hq|].
  pose proof (positive_nonzero Hq) as Hne.
  now rewrite !test_field.
Qed.

Lemma Qc_leb_refl (q : Qc) : Exact.Qc_leb q q = true.
Proof. rewrite Qc_leb_le. apply Qcle_refl. Qed.

Lemma Qc_ltb_leb (p q : Qc) : Exact.Qc_ltb p q = true -> Exact.Qc_leb p q = true.
Proof. rewrite Qc_ltb_lt, Qc_leb_le. apply Qclt_le_weak. Qed.

Lemma Qc_leb_total (p q : Qc) : Exact.Qc_ltb p q = false -> Exact.Qc_leb q p = true.
Proof. rewrite Qc_ltb_false, Qc_leb_le. auto. Qed.

#[local] Hint Resolve Qc_leb_refl : exact_arith.

Lemma exact_arithmetic : Arithmetic Exact.exact.
Proof.
  constructor; unfold zero, one; simpl.
  - (* leb_trans *)
    intros a b c. exact_cases.
    all: rewrite !Qc_leb_le; apply Qcle_trans.
  - (* ltb_leb *)
    intros a b. exact_cases.
    all: apply Qc_ltb_leb.
  - (* ltb_not_leb *)
    intros a b. exact_cases.
    all: rewrite Qc_ltb_lt, Qc_leb_false; auto.
  - (* leb_self *)
    intros a b. exact_cases.
  - (* leb_antisym *)
    intros a b. exact_cases.
    all: rewrite !Qc_leb_le, Qc_eqb_eq; apply Qcle_antisym.
  - (* finite_self *)
    intros a. exact_cases.
  - (* finite_between *)
    intros a b t. exact_cases.
  - (* finite_positive *)
    intros d. exact_cases.
    all: intros _; rewrite Qc_leb_false, Qc_ltb_lt; auto.
  - (* zero_lt_one *)
    reflexivity.
  - (* zero_finite *)
    reflexivity.
  - (* min_spec *)
    intros a b. exact_cases.
    all: intros _ _; destruct (Exact.Qc_ltb _ _) eqn:E;
      [right; split; [reflexivity | now apply Qc_ltb_leb]
      |left; split; [reflexivity | now apply Qc_leb_total]].
  - (* max_spec *)
    intros a b. exact_cases.
    all: intros _ _; destruct (Exact.Qc_ltb _ _) eqn:E;
      [right; split; [reflexivity | now apply Qc_ltb_leb]
      |left; split; [reflexivity | now apply Qc_leb_total]].
  - (* min_number *)
    intros a b. exact_cases.
  - (* max_number *)
    intros a b. exact_cases.
  - (* mul_one_l *)
    intros d. exact_cases.
    all: f_equal; apply Qcmult_1_l.
  - (* mul_zero_l *)
    intros d. exact_cases.
    all: intros _ _; unfold Exact.ofNat; f_equal; apply Qcmult_0_l.
  - (* mul_le_mono *)
    intros a b d Hab Hfin Hpos. destruct d as [| |q]; try discriminate.
    simpl in Hpos. apply Qc_ltb_lt in Hpos.
    destruct a as [|[]|p], b as [|[]|r]; simpl in *; try discriminate;
      rewrite ?(sign_positive Hpos); simpl; auto.
    rewrite Qc_leb_le in *.
    apply Qcmult_le_compat_r; [exact Hab | now apply Qclt_le_weak].
  - (* mul_finite *)
    intros a d. destruct a as [|[]|p], d as [|[]|q]; simpl; auto;
      try discriminate; destruct (Exact.sign _) as [[]|]; discriminate.
  - (* div_zero_l *)
    intros w Hw. destruct w as [|[]|q]; simpl in *; try discriminate; auto.
    apply Qc_ltb_lt in Hw. rewrite (sign_positive Hw).
    unfold Exact.ofNat. f_equal. unfold Qcdiv. apply Qcmult_0_l.
  - (* div_self *)
    intros w Hfin Hw. destruct w as [| |q]; try discriminate.
    simpl in *. apply Qc_ltb_lt in Hw. rewrite (sign_positive Hw).
    unfold Exact.ofNat. f_equal. unfold Qcdiv. apply Qcmult_inv_r.
    now apply positive_nonzero.
  - (* div_le_mono *)
    intros a b w Hab Hfin Hw. destruct w as [| |q]; try discriminate.
    simpl in Hw. apply Qc_ltb_lt in Hw.
    destruct a as [|[]|p], b as [|[]|r]; simpl in *; try discriminate;
      rewrite ?(sign_positive Hw); simpl; auto.
    rewrite Qc_leb_le in *.
    now apply Qcdiv_le_compat_r.
Qed.
End ExactFacts.


(** ** The doubles: order and exact identities *)

Section DoubleFacts.
#[local] Unset Implicit Arguments.
Local Open Scope float_scope.

Lemma Prim2SF_zero : Prim2SF 0 = S754_zero false.
Proof. reflexivity. Qed.

Lemma Prim2SF_one : Prim2SF 1 = S754_finite false 4503599627370496 (-52).
Proof. reflexivity. Qed.

Lemma Prim2SF_infinity : Prim2SF infinity = S754_infinity false.
Proof. reflexivity. Qed.

(** A finite double above zero is a positive mantissa at an exponent, in
    canonical form. *)
Lemma positive_finite (w : float) :
  is_finite w = true -> (0 <? w) = true ->
  exists m e, Prim2SF w = S754_finite false m e /\ bounded prec emax m e = true.
Proof.
  intros Hfin Hpos. rewrite ltb_spec, Prim2SF_zero in Hpos.
  pose proof (Prim2SF_valid w) as Hvalid.
  unfold is_finite, is_infinity, is_nan in Hfin.
  rewrite !FloatAxioms.eqb_spec, abs_spec, Prim2SF_infinity in Hfin.
  destruct (Prim2SF w) as [s|s| |s m e] eqn:E; cbn in Hpos, Hfin;
    try discriminate.
  - destruct s; discriminate.
  - destruct s; [discriminate|]. exists m, e. auto.
Qed.

(** A double that is neither above zero nor at most zero is [NaN]. *)
Lemma unordered_nan (d : float) :
  (0 <? d) = false -> (d <=? 0) = false -> Prim2SF d = S754_nan.
Proof.
  rewrite ltb_spec, leb_spec, Prim2SF_zero.
  destruct (Prim2SF d) as [s|s| |s m e]; cbn; try reflexivity;
    destruct s; discriminate.
Qed.

Lemma mul_nan_not_finite (p d : float) :
  Prim2SF d = S754_nan -> is_finite (p * d) = false.
Proof.
  intros E. unfold is_finite, is_nan.
  rewrite FloatAxioms.eqb_spec, mul_spec, E.
  now destruct (Prim2SF p).
Qed.

Lemma SFleb_trans (a b c : spec_float) :
  SFleb a b = true -> SFleb b c = true -> SFleb a c = true.
Proof.
  unfold SFleb. sf_cases; compare_cases.
Qed.

Lemma SFltb_leb (a b : spec_float) : SFltb a b = true -> SFleb a b = true.
Proof. unfold SFltb, SFleb. now destruct (SFcompare a b) as [[]|]. Qed.

Lemma SFcompare_antisym (a b : spec_float) :
  SFcompare b a = option_map CompOpp (SFcompare a b).
Proof.
  sf_cases; compare_cases.
Qed.

Lemma SFltb_not_leb (a b : spec_float) : SFltb a b = true -> SFleb b a = false.
Proof.
  unfold SFltb, SFleb. rewrite (SFcompare_antisym a b).
  now destruct (SFcompare a b) as [[]|].
Qed.

Lemma SFleb_self (a b : spec_float) :
  SFleb a b = true -> SFleb a a = true /\ SFleb b b = true.
Proof.
  unfold SFleb. sf_cases; compare_cases; split; compare_cases.
Qed.

Lemma SFleb_antisym (a b : spec_float) :
  SFleb a b = true -> SFleb b a = true -> SFeqb a b = true.
Proof.
  unfold SFleb, SFeqb. rewrite (SFcompare_antisym a b).
  now destruct (SFcompare a b) as [[]|].
Qed.

Lemma SFleb_total (a b : spec_float) :
  SFleb a a = true -> SFleb b b = true -> SFltb a b = false -> SFleb b a = true.
Proof.
  unfold SFleb, SFltb. rewrite (SFcompare_antisym a b).
  sf_cases; compare_cases.
Qed.

Lemma is_finite_spec (x : float) : is_finite x = SFfinite (Prim2SF x).
Proof.
  unfold is_finite, is_infinity, is_nan.
  rewrite !FloatAxioms.eqb_spec, abs_spec, Prim2SF_infinity.
  unfold SFeqb. destruct (Prim2SF x) as [[]|[]| |[] m e]; cbn; try reflexivity;
    rewrite Z.compare_refl; change (Pos.compare_cont Eq m m) with (Pos.compare m m);
    now rewrite Pos.compare_refl.
Qed.

Lemma SFleb_refl_eqb (a : spec_float) : SFleb a a = SFeqb a a.
Proof. unfold SFleb, SFeqb. sf_cases; compare_cases. Qed.

Lemma SFleb_number (x : float) : (x <=? x) = negb (is_nan x).
Proof.
  unfold is_nan.
  now rewrite leb_spec, FloatAxioms.eqb_spec, negb_involutive, SFleb_refl_eqb.
Qed.

Lemma f64_min_spec (a b : float) :
  (a <=? a) = true -> (b <=? b) = true ->
  (f64_min a b = a /\ (a <=? b) = true) \/
  (f64_min a b = b /\ (b <=? a) = true).
Proof.
  intros Ha Hb. unfold f64_min.
  rewrite SFleb_number in Ha, Hb. apply negb_true_iff in Ha, Hb.
  rewrite Ha, Hb. cbn [orb].
  rewrite !leb_spec, !ltb_spec.
  destruct (SFltb (Prim2SF a) (Prim2SF b)) eqn:Hab.
  { left. split; [reflexivity | now apply SFltb_leb]. }
  destruct (SFltb (Prim2SF b) (Prim2SF a)) eqn:Hba.
  { right. split; [reflexivity | now apply SFltb_leb]. }
  assert (Ha' : SFleb (Prim2SF a) (Prim2SF a) = true)
    by (now rewrite <- leb_spec, SFleb_number, Ha).
  assert (Hb' : SFleb (Prim2SF b) (Prim2SF b) = true)
    by (now rewrite <- leb_spec, SFleb_number, Hb).
  destruct (get_sign a); [left | right]; split; try reflexivity;
    now apply SFleb_total.
Qed.

Lemma f64_max_spec (a b : float) :
  (a <=? a) = true -> (b <=? b) = true ->
  (f64_max a b = a /\ (b <=? a) = true) \/
  (f64_max a b = b /\ (a <=? b) = true).
Proof.
  intros Ha Hb. unfold f64_max.
  rewrite SFleb_number in Ha, Hb. apply negb_true_iff in Ha, Hb.
  rewrite Ha, Hb. cbn [orb].
  rewrite !leb_spec, !ltb_spec.
  destruct (SFltb (Prim2SF a) (Prim2SF b)) eqn:Hab.
  { right. split; [reflexivity | now apply SFltb_leb]. }
  destruct (SFltb (Prim2SF b) (Prim2SF a)) eqn:Hba.
  { left. split; [reflexivity | now apply SFltb_leb]. }
  assert (Ha' : SFleb (Prim2SF a) (Prim2SF a) = true)
    by (now rewrite <- leb_spec, SFleb_number, Ha).
  assert (Hb' : SFleb (Prim2SF b) (Prim2SF b) = true)
    by (now rewrite <- leb_spec, SFleb_number, Hb).
  destruct (get_sign a); [right | left]; split; try reflexivity;
    now apply SFleb_total.
Qed.

Lemma nan_not_number : (nan <=? nan) = false.
Proof. reflexivity. Qed.

Lemma f64_min_number (a b : float) :
  (f64_min a b <=? f64_min a b) = true -> (a <=? a) = true /\ (b <=? b) = true.
Proof.
  unfold f64_min. rewrite (SFleb_number a), (SFleb_number b).
  destruct (is_nan a), (is_nan b); cbn [orb negb]; auto;
    rewrite nan_not_number; discriminate.
Qed.

Lemma f64_max_number (a b : float) :
  (f64_max a b <=? f64_max a b) = true -> (a <=? a) = true /\ (b <=? b) = true.
Proof.
  unfold f64_max. rewrite (SFleb_number a), (SFleb_number b).
  destruct (is_nan a), (is_nan b); cbn [orb negb]; auto;
    rewrite nan_not_number; discriminate.
Qed.

(** Multiplying by one is exact. *)
Lemma round_times_one (s : bool) (m : positive) (e : Z) :
  bounded prec emax m e = true ->
  binary_round_aux prec emax s (Z.pos (4503599627370496 * m)) (-52 + e) loc_Exact
  = S754_finite s m e.
Proof.
  intros Hb. unfold bounded, canonical_mantissa in Hb.
  apply andb_true_iff in Hb. destruct Hb as [Hcanon Hle].
  apply Z.eqb_eq in Hcanon.
  unfold binary_round_aux, shr_fexp.
  cbn [Pos.mul Zdigits2 digits2_pos].
  match goal with
  | |- context [fexp prec emax (?a + (-52 + e))%Z] =>
      replace (a + (-52 + e))%Z with (Z.pos (digits2_pos m) + e)%Z
        by (rewrite !Pos2Z.inj_succ; lia)
  end.
  rewrite Hcanon.
  replace (e - (-52 + e))%Z with 52%Z by lia.
  cbn [shr shr_record_of_loc iter_pos shr_1 orb shr_m loc_of_shr_record
       round_nearest_even Zdigits2].
  replace (-52 + e + 52)%Z with e by lia.
  cbn [SpecFloat.iter_pos shr_1 orb shr_m loc_of_shr_record
       round_nearest_even Zdigits2].
  rewrite Hcanon, Z.sub_diag. cbn [shr shr_m shr_record_of_loc].
  now rewrite Hle.
Qed.

Lemma f64_mul_one_l (d : float) : 1 * d = d.
Proof.
  apply Prim2SF_inj. rewrite mul_spec, Prim2SF_one.
  pose proof (Prim2SF_valid d) as Hvalid.
  destruct (Prim2SF d) as [s|s| |s m e]; try reflexivity.
  unfold SF64mul, SFmul. cbn [xorb]. now apply round_times_one.
Qed.

Lemma f64_mul_zero_l (d : float) :
  is_finite d = true -> (0 <? d) = true -> 0 * d = 0.
Proof.
  intros Hfin Hpos. destruct (positive_finite d Hfin Hpos) as (m & e & E & _).
  apply Prim2SF_inj. now rewrite mul_spec, E.
Qed.

Lemma f64_mul_finite (a d : float) :
  is_finite (a * d) = true -> is_finite a = true /\ is_finite d = true.
Proof.
  rewrite !is_finite_spec, mul_spec.
  destruct (Prim2SF a) as [sa|sa| |sa ma ea], (Prim2SF d) as [sd|sd| |sd md ed];
    try (intros _; split; reflexivity); cbn; discriminate.
Qed.

Lemma f64_div_zero_l (w : float) : (0 <? w) = true -> 0 / w = 0.
Proof.
  intros Hpos. rewrite ltb_spec, Prim2SF_zero in Hpos.
  apply Prim2SF_inj. rewrite div_spec, Prim2SF_zero.
  destruct (Prim2SF w) as [[]|[]| |[] m e]; cbn in *; try discriminate;
    reflexivity.
Qed.

Lemma div_eucl_shiftl (m : positive) :
  Z.div_eucl (Z.shiftl (Zpos m) 53) (Zpos m) = (9007199254740992%Z, 0%Z).
Proof.
  rewrite Z.shiftl_mul_pow2 by lia.
  pose proof (Z.div_eucl_eq (Z.pos m * 2 ^ 53) (Z.pos m)) as H.
  pose proof (Z.mod_pos_bound (Z.pos m * 2 ^ 53) (Z.pos m)) as Hb.
  unfold Z.modulo, Z.div in *.
  destruct (Z.div_eucl _ _) as [q r].
  assert (Hq : q = (2^53)%Z) by nia.
  assert (Hr : r = 0%Z) by nia.
  subst. reflexivity.
Qed.

Lemma f64_div_self (w : float) :
  is_finite w = true -> (0 <? w) = true -> w / w = 1.
Proof.
  intros Hfin Hpos. destruct (positive_finite w Hfin Hpos) as (m & e & E & _).
  apply Prim2SF_inj. rewrite div_spec, E, Prim2SF_one.
  unfold SF64div, SFdiv, SFdiv_core_binary.
  replace (Zdigits2 (Z.pos m) + e - (Zdigits2 (Z.pos m) + e))%Z with 0%Z by lia.
  rewrite Z.sub_diag.
  change (IntDef.Z.min (fexp prec emax 0) 0) with (-53)%Z.
  cbn [Z.opp Z.sub Z.add Z.pos_sub].
  change (IntDef.Z.div_eucl (IntDef.Z.shiftl (Z.pos m) 53) (Z.pos m))
    with (Z.div_eucl (Z.shiftl (Z.pos m) 53) (Z.pos m)).
  rewrite div_eucl_shiftl.
  unfold new_location, new_location_even, new_location_odd.
  destruct (IntDef.Z.even (Z.pos m)); reflexivity.
Qed.

Lemma f64_finite_between (a b t : float) :
  is_finite a = true -> is_finite b = true ->
  (a <=? t) = true -> (t <=? b) = true -> is_finite t = true.
Proof.
  rewrite !is_finite_spec, !leb_spec. unfold SFleb.
  destruct (Prim2SF a) as [[]|[]| |[] ? ?], (Prim2SF b) as [[]|[]| |[] ? ?],
    (Prim2SF t) as [[]|[]| |[] ? ?]; cbn; try discriminate; reflexivity.
Qed.

Lemma f64_finite_positive (d : float) :
  is_finite d = true -> (d <=? 0) = false -> (0 <? d) = true.
Proof.
  rewrite is_finite_spec, leb_spec, ltb_spec, Prim2SF_zero.
  destruct (Prim2SF d) as [[]|[]| |[] ? ?]; cbn; try discriminate; reflexivity.
Qed.

Lemma f64_finite_self (a : float) : is_finite a = true -> (a <=? a) = true.
Proof.
  rewrite is_finite_spec, leb_spec, SFleb_refl_eqb. unfold SFeqb.
  destruct (Prim2SF a) as [[]|[]| |[] m e]; cbn; try discriminate;
    try reflexivity; intros _; compare_cases.
Qed.

(** On the doubles, a click at 0 seeks to 0 and a click at the width seeks
    to the duration, for every finite positive width and duration, and a
    click does nothing when the duration is not above 0. *)
Lemma pixelToTime_on_doubles :
  (forall x w d : float,
     (0 <? d) = false -> pixelToTime (N := binary64) x w d = None) /\
  (forall w d : float,
     is_finite w = true -> (0 <? w) = true ->
     is_finite d = true -> (0 <? d) = true ->
     pixelToTime (N := binary64) 0 w d = Some 0 /\
     pixelToTime (N := binary64) w w d = Some d).
Proof.
  assert (E0 : @zero binary64 = 0) by reflexivity.
  assert (E1 : @one binary64 = 1) by reflexivity.
  split.
  - intros x w d Hd. unfold pixelToTime. rewrite E0, E1. cbn.
    destruct (d <=? 0) eqn:Hle; [reflexivity|].
    now rewrite (mul_nan_not_finite _ d (unordered_nan d Hd Hle)).
  - intros w d Hwfin Hw Hfin Hpos.
    assert (Hguard : (d <=? 0) = false).
    { rewrite leb_spec. apply SFltb_not_leb. now rewrite <- ltb_spec. }
    unfold pixelToTime. rewrite E0, E1. cbn.
    rewrite Hguard, f64_div_zero_l, f64_div_self by assumption.
    change (f64_max 0 (f64_min 1 0)) with 0.
    change (f64_max 0 (f64_min 1 1)) with 1.
    rewrite f64_mul_zero_l, f64_mul_one_l by assumption.
    change (is_finite 0) with true. now rewrite Hfin.
Qed.

(** On the doubles, the facts of arithmetic follow from the two facts on
    rounding. *)
Lemma binary64_arithmetic : Rounding binary64 -> Arithmetic binary64.
Proof.
  intros R. constructor; cbn.
  - intros a b c. rewrite !leb_spec. apply SFleb_trans.
  - intros a b. rewrite leb_spec, ltb_spec. apply SFltb_leb.
  - intros a b. rewrite leb_spec, ltb_spec. apply SFltb_not_leb.
  - intros a b. rewrite !leb_spec. apply SFleb_self.
  - intros a b. rewrite !leb_spec, FloatAxioms.eqb_spec. apply SFleb_antisym.
  - exact f64_finite_self.
  - exact f64_finite_between.
  - exact f64_finite_positive.
  - reflexivity.
  - reflexivity.
  - exact f64_min_spec.
  - exact f64_max_spec.
  - exact f64_min_number.
  - exact f64_max_number.
  - exact f64_mul_one_l.
  - exact f64_mul_zero_l.
  - exact (round_mul_le R).
  - exact f64_mul_finite.
  - exact f64_div_zero_l.
  - exact f64_div_self.
  - exact (round_div_le R).
Qed.
End DoubleFacts.


(** ** The doubles: rounding keeps the order *)

Section RoundingFacts.
#[local] Unset Implicit Arguments.
Local Open Scope Z_scope.

(** Digits *)
Lemma digits2_pos_bounds (p : positive) :
  2 ^ (Z.pos (digits2_pos p) - 1) <= Z.pos p < 2 ^ Z.pos (digits2_pos p).
Proof.
  induction p as [p IH | p IH |]; cbn [digits2_pos].
  - rewrite Pos2Z.inj_succ.
    replace (Z.succ (Z.pos (digits2_pos p)) - 1) with (Z.succ (Z.pos (digits2_pos p) - 1)) by lia.
    rewrite !Z.pow_succ_r by lia. lia.
  - rewrite Pos2Z.inj_succ.
    replace (Z.succ (Z.pos (digits2_pos p)) - 1) with (Z.succ (Z.pos (digits2_pos p) - 1)) by lia.
    rewrite !Z.pow_succ_r by lia. lia.
  - cbn. lia.
Qed.

Lemma Zdigits2_bounds (m : Z) :
  0 < m -> 2 ^ (Zdigits2 m - 1) <= m < 2 ^ Zdigits2 m.
Proof.
  destruct m as [|p|p]; try lia. intros _. apply digits2_pos_bounds.
Qed.

Lemma Zdigits2_pos (m : Z) : 0 < m -> 0 < Zdigits2 m.
Proof. destruct m; cbn; lia. Qed.

Lemma Zdigits2_nonneg (m : Z) : 0 <= Zdigits2 m.
Proof. destruct m; cbn; lia. Qed.

Lemma Zdigits2_unique (m k : Z) :
  2 ^ (k - 1) <= m < 2 ^ k -> 0 < m -> Zdigits2 m = k.
Proof.
  intros [Hlo Hhi] Hm.
  destruct (Zdigits2_bounds m Hm) as [Hlo' Hhi'].
  pose proof (Zdigits2_pos m Hm) as Hd.
  assert (Hk : 0 < k).
  { destruct (Z.lt_ge_cases 0 k); [assumption|].
    assert (2 ^ k <= 2 ^ 0) by (destruct (Z.eq_dec k 0); [subst; lia | rewrite (Z.pow_neg_r 2 k); lia]).
    lia. }
  destruct (Z.lt_trichotomy (Zdigits2 m) k) as [H | [H | H]]; [|assumption|].
  - assert (2 ^ Zdigits2 m <= 2 ^ (k - 1)) by (apply Z.pow_le_mono_r; lia). lia.
  - assert (2 ^ k <= 2 ^ (Zdigits2 m - 1)) by (apply Z.pow_le_mono_r; lia). lia.
Qed.

Lemma Zdigits2_le (m m' : Z) : 0 <= m <= m' -> Zdigits2 m <= Zdigits2 m'.
Proof.
  intros [H0 Hle]. destruct (Z.eq_dec m 0) as [-> | Hm].
  - apply Zdigits2_nonneg.
  - destruct (Zdigits2_bounds m ltac:(lia)) as [Hlo _].
    destruct (Zdigits2_bounds m' ltac:(lia)) as [_ Hhi].
    destruct (Z.le_gt_cases (Zdigits2 m) (Zdigits2 m')); [assumption|].
    assert (2 ^ Zdigits2 m' <= 2 ^ (Zdigits2 m - 1)) by (apply Z.pow_le_mono_r; lia).
    lia.
Qed.

(** Shifting right *)
Lemma shr_1_spec (m : Z) (r s : bool) :
  0 <= m ->
  shr_1 {| shr_m := m; shr_r := r; shr_s := s |} =
  {| shr_m := m / 2; shr_r := Z.odd m; shr_s := r || s |}.
Proof.
  intros Hm. destruct m as [|p|p]; [reflexivity | | lia].
  destruct p as [p|p|]; cbn [shr_1 Z.odd].
  - f_equal. rewrite Pos2Z.inj_xI.
    apply Z.div_unique with 1; lia.
  - f_equal. rewrite Pos2Z.inj_xO.
    apply Z.div_unique with 0; lia.
  - reflexivity.
Qed.

Lemma odd_mod2 (m : Z) : Z.odd m = (m mod 2 =? 1).
Proof.
  rewrite Zmod_odd. now destruct (Z.odd m).
Qed.

Lemma shr_1_locate (N G : Z) :
  0 <= N -> 0 < G -> shr_1 (locate N G) = locate N (2 * G).
Proof.
  intros HN HG. unfold locate.
  rewrite shr_1_spec by (apply Z.div_pos; lia).
  pose proof (Z.div_mod N G ltac:(lia)) as E.
  pose proof (Z.mod_pos_bound N G HG) as Hb.
  set (m := N / G) in *. set (rho := N mod G) in *.
  pose proof (Z.div_mod m 2 ltac:(lia)) as E2.
  pose proof (Z.mod_pos_bound m 2 ltac:(lia)) as Hb2.
  assert (Hq : N / (2 * G) = m / 2).
  { symmetry. apply Z.div_unique with ((m mod 2) * G + rho); nia. }
  assert (Hr : N mod (2 * G) = (m mod 2) * G + rho).
  { symmetry. apply Z.mod_unique with (m / 2); nia. }
  rewrite Hq, Hr, odd_mod2. f_equal.
  - assert (Hc : m mod 2 = 0 \/ m mod 2 = 1) by lia.
    destruct Hc as [-> | ->]; [symmetry; apply Z.leb_gt | symmetry; apply Z.leb_le]; lia.
  - (* sticky *)
    assert (Hsmall : 2 * rho < G -> (2 * rho) mod G = 2 * rho)
      by (intros; apply Z.mod_small; lia).
    assert (Hm : (2 * (m mod 2 * G + rho)) mod (2 * G) = 2 * rho).
    { assert (Hc : m mod 2 = 0 \/ m mod 2 = 1) by lia.
      destruct Hc as [-> | ->].
      - apply Z.mod_small. lia.
      - symmetry. apply Z.mod_unique with 1; lia. }
    rewrite Hm.
    destruct (Z.leb_spec G (2 * rho)) as [H | H],
             (Z.eqb_spec ((2 * rho) mod G) 0) as [H1 | H1],
             (Z.eqb_spec (2 * rho) 0) as [H2 | H2];
      try reflexivity; exfalso; try lia.
Qed.

Lemma iter_pos_nat {A} (f : A -> A) (p : positive) (x : A) :
  SpecFloat.iter_pos f p x = Nat.iter (Pos.to_nat p) f x.
Proof.
  revert x. induction p as [p IH | p IH |]; intros x; cbn [SpecFloat.iter_pos].
  - rewrite !IH, Pos2Nat.inj_xI.
    replace (S (2 * Pos.to_nat p))%nat
      with (Pos.to_nat p + (Pos.to_nat p + 1))%nat by lia.
    now rewrite !Nat.iter_add.
  - rewrite !IH, Pos2Nat.inj_xO.
    replace (2 * Pos.to_nat p)%nat with (Pos.to_nat p + Pos.to_nat p)%nat by lia.
    now rewrite Nat.iter_add.
  - reflexivity.
Qed.

Lemma shr_nat_locate (N G : Z) (n : nat) :
  0 <= N -> 0 < G ->
  Nat.iter n shr_1 (locate N G) = locate N (G * 2 ^ Z.of_nat n).
Proof.
  intros HN HG. induction n as [|n IH].
  - cbn. now rewrite Z.mul_1_r.
  - rewrite Nat.iter_succ, IH, shr_1_locate by (try apply Z.mul_pos_pos; lia).
    rewrite Nat2Z.inj_succ, Z.pow_succ_r by lia. f_equal. lia.
Qed.

Lemma shr_locate (N G E n : Z) :
  0 <= N -> 0 < G -> 0 <= n ->
  shr (locate N G) E n = (locate N (G * 2 ^ n), E + n).
Proof.
  intros HN HG Hn. destruct n as [|p|p]; try lia.
  - cbn [shr]. now rewrite Z.mul_1_r, Z.add_0_r.
  - cbn [shr]. rewrite iter_pos_nat, shr_nat_locate by assumption.
    now rewrite positive_nat_Z.
Qed.

(** Rounding to nearest, ties to even *)
Lemma rne_spec (N G : Z) :
  0 <= N -> 0 < G -> rne N G = N / G + (if rounds_up N G then 1 else 0).
Proof.
  intros HN HG. unfold rne, rounds_up, locate. cbn [shr_m loc_of_shr_record].
  pose proof (Z.mod_pos_bound N G HG) as Hb.
  set (m := N / G). set (rho := N mod G) in *.
  assert (Hsmall : 2 * rho < G -> (2 * rho) mod G = 2 * rho)
    by (intros; apply Z.mod_small; lia).
  assert (Hbig : G <= 2 * rho -> (2 * rho) mod G = 2 * rho - G).
  { intros. symmetry. apply Z.mod_unique with 1; lia. }
  rewrite <- Z.negb_even.
  destruct (Z.leb_spec G (2 * rho)) as [H | H].
  - rewrite Hbig by assumption.
    destruct (Z.eqb_spec (2 * rho - G) 0) as [H1 | H1]; cbn [negb round_nearest_even].
    + replace (G <? 2 * rho) with false by (symmetry; apply Z.ltb_ge; lia).
      replace (G =? 2 * rho) with true by (symmetry; apply Z.eqb_eq; lia).
      cbn [orb andb]. destruct (Z.even m); cbn [negb]; lia.
    + replace (G <? 2 * rho) with true by (symmetry; apply Z.ltb_lt; lia).
      cbn [orb]. lia.
  - rewrite Hsmall by assumption.
    replace (G <? 2 * rho) with false by (symmetry; apply Z.ltb_ge; lia).
    replace (G =? 2 * rho) with false by (symmetry; apply Z.eqb_neq; lia).
    cbn [orb andb].
    destruct (Z.eqb_spec (2 * rho) 0); cbn [negb round_nearest_even]; lia.
Qed.

Lemma rne_bounds (N G : Z) :
  0 <= N -> 0 < G -> N / G <= rne N G <= N / G + 1.
Proof.
  intros HN HG. rewrite rne_spec by assumption. destruct (rounds_up N G); lia.
Qed.

Lemma rne_exact (K G : Z) : 0 <= K -> 0 < G -> rne (K * G) G = K.
Proof.
  intros HK HG. rewrite rne_spec by nia. unfold rounds_up.
  rewrite Z.mod_mul, Z.div_mul by lia.
  replace (G <? 2 * 0) with false by (symmetry; apply Z.ltb_ge; lia).
  replace (G =? 2 * 0) with false by (symmetry; apply Z.eqb_neq; lia).
  cbn. lia.
Qed.

Lemma rne_mono (N N' G : Z) :
  0 <= N <= N' -> 0 < G -> rne N G <= rne N' G.
Proof.
  intros [HN Hle] HG.
  pose proof (Z.div_le_mono N N' G HG Hle) as Hm.
  destruct (Z.eq_dec (N / G) (N' / G)) as [E | Hne].
  - rewrite !rne_spec by lia. rewrite <- E. unfold rounds_up. rewrite <- E.
    pose proof (Z.div_mod N G ltac:(lia)) as E1.
    pose proof (Z.div_mod N' G ltac:(lia)) as E2.
    rewrite <- E in E2.
    assert (Hrho : N mod G <= N' mod G) by lia.
    destruct (Z.ltb_spec G (2 * (N mod G))), (Z.ltb_spec G (2 * (N' mod G)));
      destruct (Z.eqb_spec G (2 * (N mod G))), (Z.eqb_spec G (2 * (N' mod G)));
      destruct (Z.odd (N / G)); cbn; lia.
  - pose proof (rne_bounds N G HN HG). pose proof (rne_bounds N' G ltac:(lia) HG).
    lia.
Qed.

Lemma locate_scale (N G k : Z) :
  0 <= N -> 0 < G -> 0 < k -> locate (N * k) (G * k) = locate N G.
Proof.
  intros HN HG Hk. unfold locate.
  rewrite Z.div_mul_cancel_r, Z.mul_mod_distr_r by lia.
  pose proof (Z.mod_pos_bound N G HG) as Hb.
  f_equal.
  - destruct (Z.leb_spec (G * k) (2 * (N mod G * k))),
             (Z.leb_spec G (2 * (N mod G))); try reflexivity; nia.
  - f_equal. replace (2 * (N mod G * k)) with ((2 * (N mod G)) * k) by lia.
    rewrite Z.mul_mod_distr_r by lia.
    destruct (Z.eqb_spec ((2 * (N mod G)) mod G * k) 0),
             (Z.eqb_spec ((2 * (N mod G)) mod G) 0); try reflexivity; nia.
Qed.

Lemma rne_scale (N G k : Z) :
  0 <= N -> 0 < G -> 0 < k -> rne (N * k) (G * k) = rne N G.
Proof. intros. unfold rne. now rewrite locate_scale. Qed.

Lemma rne_le (N G K : Z) :
  0 <= N -> 0 < G -> N <= K * G -> rne N G <= K.
Proof.
  intros HN HG H. assert (0 <= K) by nia.
  rewrite <- (rne_exact K G) by assumption. apply rne_mono; lia.
Qed.

Lemma rne_ge (N G K : Z) :
  0 <= K -> 0 < G -> K * G <= N -> K <= rne N G.
Proof.
  intros HK HG H.
  rewrite <- (rne_exact K G) at 1 by assumption. apply rne_mono; nia.
Qed.

(** The format of the doubles *)
Lemma fexp_spec (e : Z) : fexp prec emax e = Z.max (e - 53) (-1074).
Proof. reflexivity. Qed.

Lemma binary_round_aux_finish (s : bool) (m e : Z) (l : location) :
  binary_round_aux prec emax s m e l =
  let '(mrs, e') := shr_fexp prec emax m e l in
  finish s (round_nearest_even (shr_m mrs) (loc_of_shr_record mrs)) e'.
Proof. reflexivity. Qed.

Lemma binary_round_aux_spec (s : bool) (N D E : Z) (l : location) :
  0 <= N -> 0 < D ->
  shr_record_of_loc (N / D) l = locate N D ->
  E <= fexp prec emax (Zdigits2 (N / D) + E) ->
  binary_round_aux prec emax s (N / D) E l =
  finish s (rne N (D * 2 ^ (fexp prec emax (Zdigits2 (N / D) + E) - E)))
         (fexp prec emax (Zdigits2 (N / D) + E)).
Proof.
  intros HN HD Hloc Hn. rewrite binary_round_aux_finish. unfold shr_fexp at 1.
  rewrite Hloc, shr_locate by lia.
  unfold rne. f_equal. lia.
Qed.

Lemma shr_nonpos (mrs : shr_record) (e n : Z) : n <= 0 -> shr mrs e n = (mrs, e).
Proof. destruct n; cbn; intros; try reflexivity; lia. Qed.

Lemma finish_zero (s : bool) (e : Z) : -1074 <= e -> finish s 0 e = S754_zero s.
Proof.
  intros He. unfold finish, shr_fexp. rewrite shr_nonpos; [reflexivity|].
  rewrite fexp_spec. cbn [Zdigits2]. lia.
Qed.

Lemma finish_small (s : bool) (m e : Z) :
  -1074 <= e -> 0 < m < 2 ^ 53 ->
  finish s m e =
  if e <=? 971 then S754_finite s (Z.to_pos m) e else S754_infinity s.
Proof.
  intros He Hm. unfold finish, shr_fexp.
  assert (Hd : Zdigits2 m <= 53).
  { destruct (Zdigits2_bounds m ltac:(lia)) as [Hlo _].
    destruct (Z.le_gt_cases (Zdigits2 m) 53); [assumption|].
    assert (2 ^ 53 <= 2 ^ (Zdigits2 m - 1)) by (apply Z.pow_le_mono_r; lia). lia. }
  rewrite shr_nonpos by (rewrite fexp_spec; lia).
  destruct m as [|p|p]; try lia. reflexivity.
Qed.

Lemma finish_carry (s : bool) (e : Z) :
  -1074 <= e ->
  finish s (2 ^ 53) e =
  if e + 1 <=? 971 then S754_finite s 4503599627370496 (e + 1)
  else S754_infinity s.
Proof.
  intros He. unfold finish, shr_fexp.
  change (Zdigits2 (2 ^ 53)) with 54. rewrite fexp_spec.
  replace (Z.max (54 + e - 53) (-1074) - e) with 1 by lia.
  reflexivity.
Qed.

Lemma SFleb_finite_pos (m1 m2 : Z) (e1 e2 : Z) :
  0 < m1 -> 0 < m2 ->
  (e1 < e2 \/ (e1 = e2 /\ m1 <= m2)) ->
  SFleb (S754_finite false (Z.to_pos m1) e1) (S754_finite false (Z.to_pos m2) e2)
  = true.
Proof.
  intros H1 H2 H. unfold SFleb, SFcompare.
  change (Pos.compare_cont Eq (Z.to_pos m1) (Z.to_pos m2))
    with (Pos.compare (Z.to_pos m1) (Z.to_pos m2)).
  rewrite <- Z2Pos.inj_compare by assumption.
  destruct (Z.compare_spec e1 e2); try lia; try reflexivity.
  destruct (Z.compare_spec m1 m2); try lia; reflexivity.
Qed.

Lemma finish_le (r1 r2 t1 t2 : Z) :
  -1074 <= t1 <= t2 ->
  0 <= r1 <= 2 ^ 53 -> 0 <= r2 <= 2 ^ 53 ->
  (t1 = t2 -> r1 <= r2) ->
  (t1 < t2 -> 2 ^ 52 <= r2) ->
  SFleb (finish false r1 t1) (finish false r2 t2) = true.
Proof.
  intros Ht Hr1 Hr2 Heq Hlt.
  assert (C1 : r1 = 0 \/ 0 < r1 < 2 ^ 53 \/ r1 = 2 ^ 53) by lia.
  assert (C2 : r2 = 0 \/ 0 < r2 < 2 ^ 53 \/ r2 = 2 ^ 53) by lia.
  assert (E1 : finish false r1 t1 = S754_zero false \/
               (exists m e, 0 < m /\ finish false r1 t1 = S754_finite false (Z.to_pos m) e /\
                            e <= 971 /\
                            ((m = r1 /\ e = t1 /\ r1 < 2 ^ 53) \/
                             (m = 2 ^ 52 /\ e = t1 + 1 /\ r1 = 2 ^ 53))) \/
               (finish false r1 t1 = S754_infinity false /\ 971 < t1 + 1 /\ 0 < r1 /\
                (971 < t1 \/ r1 = 2 ^ 53))).
  { destruct C1 as [-> | [C1 | ->]].
    - left. apply finish_zero. lia.
    - right. rewrite finish_small by lia. destruct (Z.leb_spec t1 971).
      + left. exists r1, t1. repeat split; lia.
      + right. repeat split; lia.
    - right. rewrite finish_carry by lia. destruct (Z.leb_spec (t1 + 1) 971).
      + left. exists (2 ^ 52), (t1 + 1). repeat split; lia.
      + right. repeat split; lia. }
  assert (E2 : finish false r2 t2 = S754_zero false /\ r2 = 0 \/
               (exists m e, 0 < m /\ finish false r2 t2 = S754_finite false (Z.to_pos m) e /\
                            ((m = r2 /\ e = t2 /\ r2 < 2 ^ 53) \/
                             (m = 2 ^ 52 /\ e = t2 + 1 /\ r2 = 2 ^ 53))) \/
               (finish false r2 t2 = S754_infinity false)).
  { destruct C2 as [-> | [C2 | ->]].
    - left. split; [apply finish_zero; lia | reflexivity].
    - right. rewrite finish_small by lia. destruct (Z.leb_spec t2 971).
      + left. exists r2, t2. repeat split; lia.
      + right. reflexivity.
    - right. rewrite finish_carry by lia. destruct (Z.leb_spec (t2 + 1) 971).
      + left. exists (2 ^ 52), (t2 + 1). repeat split; lia.
      + right. reflexivity. }
  destruct E1 as [-> | [(m1 & e1 & Hm1 & -> & He1 & Hc1) | (-> & Ho1 & Hp1 & Hq1)]].
  - destruct E2 as [[-> _] | [(m2 & e2 & Hm2 & -> & Hc2) | ->]]; reflexivity.
  - destruct E2 as [[-> ->] | [(m2 & e2 & Hm2 & -> & Hc2) | ->]].
    + exfalso. lia.
    + apply SFleb_finite_pos; lia.
    + reflexivity.
  - destruct E2 as [[-> ->] | [(m2 & e2 & Hm2 & E2 & Hc2) | ->]].
    + exfalso. lia.
    + exfalso. destruct C2 as [-> | [C2 | ->]]; try lia.
      * rewrite finish_small in E2 by lia. destruct (Z.leb_spec t2 971); [lia | discriminate].
      * rewrite finish_carry in E2 by lia. destruct (Z.leb_spec (t2 + 1) 971); [lia | discriminate].
    + reflexivity.
Qed.

(** What the digits of the quotient say of the numerator. *)
Lemma quotient_upper (N D : Z) :
  0 <= N -> 0 < D -> N < D * 2 ^ Zdigits2 (N / D).
Proof.
  intros HN HD.
  pose proof (Z.div_mod N D ltac:(lia)) as E.
  pose proof (Z.mod_pos_bound N D HD) as Hb.
  pose proof (Z.div_pos N D HN HD) as Hq.
  destruct (Z.eq_dec (N / D) 0) as [E0 | Hne].
  - rewrite E0 in *. cbn. lia.
  - destruct (Zdigits2_bounds (N / D) ltac:(lia)) as [_ Hhi]. nia.
Qed.

Lemma quotient_lower (N D : Z) :
  0 <= N -> 0 < D -> 0 < Zdigits2 (N / D) ->
  D * 2 ^ (Zdigits2 (N / D) - 1) <= N.
Proof.
  intros HN HD Hd.
  pose proof (Z.div_mod N D ltac:(lia)) as E.
  pose proof (Z.mod_pos_bound N D HD) as Hb.
  pose proof (Z.div_pos N D HN HD) as Hq.
  destruct (Z.eq_dec (N / D) 0) as [E0 | Hne].
  - rewrite E0 in Hd. cbn in Hd. lia.
  - destruct (Zdigits2_bounds (N / D) ltac:(lia)) as [Hlo _]. nia.
Qed.

Lemma pow2_pos (k : Z) : 0 <= k -> 0 < 2 ^ k.
Proof. intros. apply Z.pow_pos_nonneg; lia. Qed.

Lemma pow2_add (a b : Z) : 0 <= a -> 0 <= b -> 2 ^ (a + b) = 2 ^ a * 2 ^ b.
Proof. intros. apply Z.pow_add_r; assumption. Qed.

Lemma round_mono (N1 N2 D E1 E2 E0 : Z) (l1 l2 : location) :
  0 <= N1 -> 0 <= N2 -> 0 < D ->
  shr_record_of_loc (N1 / D) l1 = locate N1 D ->
  shr_record_of_loc (N2 / D) l2 = locate N2 D ->
  E1 <= fexp prec emax (Zdigits2 (N1 / D) + E1) ->
  E2 <= fexp prec emax (Zdigits2 (N2 / D) + E2) ->
  E0 <= E1 -> E0 <= E2 ->
  N1 * 2 ^ (E1 - E0) <= N2 * 2 ^ (E2 - E0) ->
  SFleb (binary_round_aux prec emax false (N1 / D) E1 l1)
        (binary_round_aux prec emax false (N2 / D) E2 l2) = true.
Proof.
  intros HN1 HN2 HD Hl1 Hl2 Hp1 Hp2 HE1 HE2 Hle.
  rewrite !binary_round_aux_spec by assumption.
  rewrite !fexp_spec in *.
  pose proof (quotient_upper N1 D HN1 HD) as Hu1.
  pose proof (quotient_upper N2 D HN2 HD) as Hu2.
  pose proof (quotient_lower N1 D HN1 HD) as Hlo1.
  pose proof (quotient_lower N2 D HN2 HD) as Hlo2.
  pose proof (Zdigits2_nonneg (N1 / D)) as Hd1.
  pose proof (Zdigits2_nonneg (N2 / D)) as Hd2.
  set (d1 := Zdigits2 (N1 / D)) in *. set (d2 := Zdigits2 (N2 / D)) in *.
  set (t1 := Z.max (d1 + E1 - 53) (-1074)) in *.
  set (t2 := Z.max (d2 + E2 - 53) (-1074)) in *.
  assert (Ht : t1 <= t2).
  { destruct (Z.le_gt_cases t1 t2) as [H | H]; [assumption | exfalso].
    assert (Hd1' : 53 <= d1) by lia.
    specialize (Hlo1 ltac:(lia)).
    assert (Hm : d2 + E2 <= d1 + E1 - 1) by lia.
    assert (H1 : D * 2 ^ (d1 - 1 + (E1 - E0)) <= N1 * 2 ^ (E1 - E0)).
    { rewrite pow2_add by lia. pose proof (pow2_pos (E1 - E0) ltac:(lia)). nia. }
    assert (H2 : N2 * 2 ^ (E2 - E0) < D * 2 ^ (d2 + (E2 - E0))).
    { rewrite pow2_add by lia. pose proof (pow2_pos (E2 - E0) ltac:(lia)). nia. }
    assert (H3 : 2 ^ (d2 + (E2 - E0)) <= 2 ^ (d1 - 1 + (E1 - E0)))
      by (apply Z.pow_le_mono_r; lia).
    nia. }
  assert (Hb : forall N E d, 0 <= N -> 0 <= d -> N < D * 2 ^ d ->
                 E <= Z.max (d + E - 53) (-1074) ->
                 0 <= rne N (D * 2 ^ (Z.max (d + E - 53) (-1074) - E)) <= 2 ^ 53).
  { intros N E d HN Hd Hu Hp.
    set (n := Z.max (d + E - 53) (-1074) - E) in *.
    pose proof (pow2_pos n ltac:(lia)) as Hn.
    assert (HG : 0 < D * 2 ^ n) by nia.
    split.
    - pose proof (rne_bounds N _ HN HG). pose proof (Z.div_pos N (D * 2 ^ n) HN HG). lia.
    - apply rne_le; try assumption.
      assert (2 ^ d <= 2 ^ (53 + n)) by (apply Z.pow_le_mono_r; lia).
      rewrite pow2_add in * by lia. nia. }
  apply finish_le.
  - lia.
  - apply Hb; assumption.
  - apply Hb; assumption.
  - intros Heq. rewrite <- Heq.
    pose proof (pow2_pos (E1 - E0) ltac:(lia)) as P1.
    pose proof (pow2_pos (E2 - E0) ltac:(lia)) as P2.
    pose proof (pow2_pos (t1 - E1) ltac:(lia)) as Q1.
    pose proof (pow2_pos (t1 - E2) ltac:(lia)) as Q2.
    rewrite <- (rne_scale N1 _ (2 ^ (E1 - E0))) by nia.
    rewrite <- (rne_scale N2 _ (2 ^ (E2 - E0))) by nia.
    replace (D * 2 ^ (t1 - E1) * 2 ^ (E1 - E0)) with (D * 2 ^ (t1 - E0))
      by (replace (t1 - E0) with ((t1 - E1) + (E1 - E0)) by lia;
          rewrite pow2_add by lia; lia).
    replace (D * 2 ^ (t1 - E2) * 2 ^ (E2 - E0)) with (D * 2 ^ (t1 - E0))
      by (replace (t1 - E0) with ((t1 - E2) + (E2 - E0)) by lia;
          rewrite pow2_add by lia; lia).
    apply rne_mono; [nia|].
    pose proof (pow2_pos (t1 - E0) ltac:(lia)). nia.
  - intros Hlt.
    assert (Hd2' : 53 <= d2) by lia.
    specialize (Hlo2 ltac:(lia)).
    pose proof (pow2_pos (t2 - E2) ltac:(lia)) as Q2.
    apply rne_ge; [lia | nia |].
    replace (d2 - 1) with (52 + (t2 - E2)) in Hlo2 by lia.
    rewrite pow2_add in Hlo2 by lia. nia.
Qed.

(** Canonical mantissas *)
Lemma bounded_spec (m : positive) (e : Z) :
  bounded prec emax m e = true ->
  Z.max (Zdigits2 (Z.pos m) + e - 53) (-1074) = e /\ e <= 971.
Proof.
  unfold bounded, canonical_mantissa. intros H.
  apply andb_true_iff in H. destruct H as [H1 H2].
  apply Z.eqb_eq in H1. apply Z.leb_le in H2.
  rewrite fexp_spec in H1. cbn [Zdigits2]. split; [exact H1 | exact H2].
Qed.

(** The order of two positive doubles is the order of their values. *)
Lemma value_order (m1 m2 : positive) (e1 e2 K : Z) :
  bounded prec emax m1 e1 = true -> bounded prec emax m2 e2 = true ->
  SFleb (S754_finite false m1 e1) (S754_finite false m2 e2) = true ->
  K <= e1 -> K <= e2 ->
  Z.pos m1 * 2 ^ (e1 - K) <= Z.pos m2 * 2 ^ (e2 - K).
Proof.
  intros B1 B2 Hle HK1 HK2.
  apply bounded_spec in B1, B2. destruct B1 as [B1 _], B2 as [B2 _].
  destruct (Zdigits2_bounds (Z.pos m1) ltac:(lia)) as [Hlo1 Hhi1].
  destruct (Zdigits2_bounds (Z.pos m2) ltac:(lia)) as [Hlo2 Hhi2].
  unfold SFleb, SFcompare in Hle.
  change (Pos.compare_cont Eq m1 m2) with (Pos.compare m1 m2) in Hle.
  destruct (Z.compare_spec e1 e2) as [E | E | E]; try discriminate.
  - subst e2. destruct (Pos.compare_spec m1 m2) as [E' | E' | E']; try discriminate.
    + subst. lia.
    + pose proof (pow2_pos (e1 - K) ltac:(lia)).
      assert (Z.pos m1 < Z.pos m2) by lia. nia.
  - assert (Hd2 : Zdigits2 (Z.pos m2) = 53) by lia.
    assert (Hd1 : Zdigits2 (Z.pos m1) <= 53) by lia.
    rewrite Hd2 in *.
    assert (H1 : 2 ^ Zdigits2 (Z.pos m1) <= 2 ^ 53) by (apply Z.pow_le_mono_r; lia).
    assert (H2 : 2 ^ (53 + (e1 - K)) <= 2 ^ (52 + (e2 - K)))
      by (apply Z.pow_le_mono_r; lia).
    rewrite !pow2_add in H2 by lia.
    pose proof (pow2_pos (e1 - K) ltac:(lia)).
    pose proof (pow2_pos (e2 - K) ltac:(lia)).
    change (53 - 1) with 52 in Hlo2. nia.
Qed.

Lemma locate_exact (N : Z) : shr_record_of_loc (N / 1) loc_Exact = locate N 1.
Proof.
  unfold locate. rewrite Z.mod_1_r, Z.div_1_r. reflexivity.
Qed.

Lemma digits_mul (m1 m2 : positive) :
  Zdigits2 (Z.pos m1) + Zdigits2 (Z.pos m2) - 1 <= Zdigits2 (Z.pos (m1 * m2)).
Proof.
  destruct (Zdigits2_bounds (Z.pos m1) ltac:(lia)) as [Hlo1 _].
  destruct (Zdigits2_bounds (Z.pos m2) ltac:(lia)) as [Hlo2 _].
  destruct (Zdigits2_bounds (Z.pos (m1 * m2)) ltac:(lia)) as [_ Hhi].
  pose proof (Zdigits2_pos (Z.pos m1) ltac:(lia)).
  pose proof (Zdigits2_pos (Z.pos m2) ltac:(lia)).
  set (d1 := Zdigits2 (Z.pos m1)) in *. set (d2 := Zdigits2 (Z.pos m2)) in *.
  set (d := Zdigits2 (Z.pos (m1 * m2))) in *.
  destruct (Z.le_gt_cases (d1 + d2 - 1) d); [assumption | exfalso].
  assert (H2 : 2 ^ d <= 2 ^ ((d1 - 1) + (d2 - 1))) by (apply Z.pow_le_mono_r; lia).
  rewrite pow2_add in H2 by lia. rewrite Pos2Z.inj_mul in Hhi.
  pose proof (pow2_pos (d1 - 1) ltac:(lia)). pose proof (pow2_pos (d2 - 1) ltac:(lia)).
  nia.
Qed.

(** Multiplying positive doubles by a positive double keeps the order. *)
Lemma mul_core_mono (m1 m2 md : positive) (e1 e2 ed : Z) :
  bounded prec emax m1 e1 = true -> bounded prec emax m2 e2 = true ->
  bounded prec emax md ed = true ->
  SFleb (S754_finite false m1 e1) (S754_finite false m2 e2) = true ->
  SFleb (binary_round_aux prec emax false (Z.pos (m1 * md)) (e1 + ed) loc_Exact)
        (binary_round_aux prec emax false (Z.pos (m2 * md)) (e2 + ed) loc_Exact)
  = true.
Proof.
  intros B1 B2 Bd Hle.
  pose proof (value_order m1 m2 e1 e2 (Z.min e1 e2) B1 B2 Hle ltac:(lia) ltac:(lia)) as Hv.
  pose proof (digits_mul m1 md) as D1. pose proof (digits_mul m2 md) as D2.
  apply bounded_spec in B1, B2, Bd.
  destruct B1 as [B1 _], B2 as [B2 _], Bd as [Bd _].
  pose proof (Zdigits2_pos (Z.pos m1) ltac:(lia)).
  pose proof (Zdigits2_pos (Z.pos m2) ltac:(lia)).
  pose proof (Zdigits2_pos (Z.pos md) ltac:(lia)).
  rewrite <- (Z.div_1_r (Z.pos (m1 * md))), <- (Z.div_1_r (Z.pos (m2 * md))).
  apply round_mono with (E0 := Z.min e1 e2 + ed); try lia.
  - apply locate_exact.
  - apply locate_exact.
  - rewrite fexp_spec, Z.div_1_r. lia.
  - rewrite fexp_spec, Z.div_1_r. lia.
  - replace (e1 + ed - (Z.min e1 e2 + ed)) with (e1 - Z.min e1 e2) by lia.
    replace (e2 + ed - (Z.min e1 e2 + ed)) with (e2 - Z.min e1 e2) by lia.
    rewrite !Pos2Z.inj_mul. nia.
Qed.

(** Division *)
Lemma new_location_locate (N D : Z) :
  0 <= N -> 0 < D ->
  shr_record_of_loc (N / D) (new_location D (N mod D)) = locate N D.
Proof.
  intros HN HD. unfold locate, new_location, new_location_even, new_location_odd.
  pose proof (Z.mod_pos_bound N D HD) as Hb.
  set (q := N / D). set (r := N mod D) in *.
  assert (Hsmall : 2 * r < D -> (2 * r) mod D = 2 * r)
    by (intros; apply Z.mod_small; lia).
  assert (Hbig : D <= 2 * r -> (2 * r) mod D = 2 * r - D).
  { intros. symmetry. apply Z.mod_unique with 1; lia. }
  change (IntDef.Z.even D) with (Z.even D).
  change (IntDef.Z.eqb r 0) with (r =? 0).
  change (IntDef.Z.compare (IntDef.Z.mul 2 r) D) with (2 * r ?= D).
  change (IntDef.Z.compare (IntDef.Z.add (IntDef.Z.mul 2 r) 1) D) with (2 * r + 1 ?= D).
  destruct (Z.even D) eqn:Heven.
  - destruct (Z.eqb_spec r 0) as [-> | Hr].
    + cbn [shr_record_of_loc]. rewrite Z.mul_0_r, Z.mod_0_l by lia.
      f_equal. symmetry. apply Z.leb_gt. lia.
    + destruct (Z.compare_spec (2 * r) D) as [E | E | E]; cbn [shr_record_of_loc].
      * f_equal; [symmetry; apply Z.leb_le; lia|].
        rewrite Hbig by lia. replace (2 * r - D) with 0 by lia. reflexivity.
      * f_equal; [symmetry; apply Z.leb_gt; lia|].
        rewrite Hsmall by lia. destruct (Z.eqb_spec (2 * r) 0); [lia | reflexivity].
      * f_equal; [symmetry; apply Z.leb_le; lia|].
        rewrite Hbig by lia. destruct (Z.eqb_spec (2 * r - D) 0); [lia | reflexivity].
  - assert (Hodd : 2 * r <> D).
    { intros E. rewrite <- E, Z.even_mul in Heven. discriminate. }
    destruct (Z.eqb_spec r 0) as [-> | Hr].
    + cbn [shr_record_of_loc]. rewrite Z.mul_0_r, Z.mod_0_l by lia.
      f_equal. symmetry. apply Z.leb_gt. lia.
    + destruct (Z.compare_spec (2 * r + 1) D) as [E | E | E]; cbn [shr_record_of_loc].
      * f_equal; [symmetry; apply Z.leb_gt; lia|].
        rewrite Hsmall by lia. destruct (Z.eqb_spec (2 * r) 0); [lia | reflexivity].
      * f_equal; [symmetry; apply Z.leb_gt; lia|].
        rewrite Hsmall by lia. destruct (Z.eqb_spec (2 * r) 0); [lia | reflexivity].
      * f_equal; [symmetry; apply Z.leb_le; lia|].
        rewrite Hbig by lia. destruct (Z.eqb_spec (2 * r - D) 0); [lia | reflexivity].
Qed.

Lemma SFdiv_core_spec (m1 m2 : positive) (e1 e2 : Z) :
  SFdiv_core_binary prec emax (Z.pos m1) e1 (Z.pos m2) e2 =
  let e' := div_exponent m1 m2 e1 e2 in
  let N := Z.pos m1 * 2 ^ (e1 - e2 - e') in
  (N / Z.pos m2, e', new_location (Z.pos m2) (N mod Z.pos m2)).
Proof.
  unfold SFdiv_core_binary, div_exponent.
  change (IntDef.Z.min ?a ?b) with (Z.min a b).
  rewrite fexp_spec.
  set (e' := Z.min _ _).
  assert (Hs : 0 <= e1 - e2 - e') by lia.
  cbv zeta.
  assert (Hm : match e1 - e2 - e' with
               | 0 => Z.pos m1
               | Z.pos _ => IntDef.Z.shiftl (Z.pos m1) (e1 - e2 - e')
               | Z.neg _ => 0
               end = Z.pos m1 * 2 ^ (e1 - e2 - e')).
  { destruct (e1 - e2 - e') as [|p|p] eqn:E; try lia.
    change (IntDef.Z.shiftl (Z.pos m1) (Z.pos p)) with (Z.shiftl (Z.pos m1) (Z.pos p)).
    apply Z.shiftl_mul_pow2. lia. }
  rewrite Hm.
  change (IntDef.Z.div_eucl ?a ?b) with (Z.div_eucl a b).
  unfold Z.div, Z.modulo. now destruct (Z.div_eucl _ _).
Qed.

Lemma quotient_digits (m mw : positive) (s : Z) :
  0 <= s -> 53 - Zdigits2 (Z.pos m) + Zdigits2 (Z.pos mw) <= s ->
  53 <= Zdigits2 (Z.pos m * 2 ^ s / Z.pos mw).
Proof.
  intros Hs0 Hs.
  destruct (Zdigits2_bounds (Z.pos m) ltac:(lia)) as [Hlo _].
  destruct (Zdigits2_bounds (Z.pos mw) ltac:(lia)) as [_ Hhi].
  pose proof (Zdigits2_pos (Z.pos m) ltac:(lia)) as Hd.
  pose proof (Zdigits2_pos (Z.pos mw) ltac:(lia)) as Hdw.
  set (d := Zdigits2 (Z.pos m)) in *. set (dw := Zdigits2 (Z.pos mw)) in *.
  assert (Hq : 2 ^ 52 <= Z.pos m * 2 ^ s / Z.pos mw).
  { apply Z.div_le_lower_bound; [lia|].
    assert (H1 : 2 ^ (52 + dw) <= 2 ^ ((d - 1) + s)) by (apply Z.pow_le_mono_r; lia).
    rewrite !pow2_add in H1 by lia.
    pose proof (pow2_pos s Hs0). pose proof (pow2_pos (d - 1) ltac:(lia)).
    assert (Z.pos mw * 2 ^ 52 <= 2 ^ 52 * 2 ^ dw) by nia.
    nia. }
  change 53 with (Zdigits2 (2 ^ 52)). apply Zdigits2_le. lia.
Qed.

(** Dividing positive doubles by a positive double keeps the order. *)
Lemma div_core_mono (m1 m2 mw : positive) (e1 e2 ew : Z) :
  bounded prec emax m1 e1 = true -> bounded prec emax m2 e2 = true ->
  bounded prec emax mw ew = true ->
  SFleb (S754_finite false m1 e1) (S754_finite false m2 e2) = true ->
  SFleb (SFdiv prec emax (S754_finite false m1 e1) (S754_finite false mw ew))
        (SFdiv prec emax (S754_finite false m2 e2) (S754_finite false mw ew))
  = true.
Proof.
  intros B1 B2 Bw Hle. unfold SFdiv. rewrite !SFdiv_core_spec. cbv zeta.
  cbn [xorb].
  set (E1 := div_exponent m1 mw e1 ew). set (E2 := div_exponent m2 mw e2 ew).
  assert (H1 : E1 <= e1 - ew) by (unfold E1, div_exponent; lia).
  assert (H2 : E2 <= e2 - ew) by (unfold E2, div_exponent; lia).
  pose proof (value_order m1 m2 e1 e2 (ew + Z.min E1 E2) B1 B2 Hle
                ltac:(lia) ltac:(lia)) as Hv.
  pose proof (pow2_pos (e1 - ew - E1) ltac:(lia)) as P1.
  pose proof (pow2_pos (e2 - ew - E2) ltac:(lia)) as P2.
  assert (Hpre : forall m e, div_exponent m mw e ew <=
                   fexp prec emax
                     (Zdigits2 (Z.pos m * 2 ^ (e - ew - div_exponent m mw e ew) / Z.pos mw)
                      + div_exponent m mw e ew)).
  { intros m e. rewrite fexp_spec.
    destruct (Z.le_gt_cases (div_exponent m mw e ew) (-1074)) as [H | H]; [lia|].
    pose proof (quotient_digits m mw (e - ew - div_exponent m mw e ew)) as Hq.
    unfold div_exponent in H, Hq |- *. lia. }
  apply round_mono with (E0 := Z.min E1 E2); try lia.
  - apply new_location_locate; lia.
  - apply new_location_locate; lia.
  - apply Hpre.
  - apply Hpre.
  - rewrite <- !Z.mul_assoc, <- !pow2_add by lia.
    replace (e1 - ew - E1 + (E1 - Z.min E1 E2)) with (e1 - (ew + Z.min E1 E2)) by lia.
    replace (e2 - ew - E2 + (E2 - Z.min E1 E2)) with (e2 - (ew + Z.min E1 E2)) by lia.
    exact Hv.
Qed.

Lemma finish_opp (s : bool) (m e : Z) :
  finish (negb s) m e = SFopp (finish s m e).
Proof.
  unfold finish. destruct (shr_fexp prec emax m e loc_Exact) as [mrs e'].
  destruct (shr_m mrs); [reflexivity | | reflexivity].
  now destruct (e' <=? emax - prec).
Qed.

Lemma binary_round_aux_opp (s : bool) (m e : Z) (l : location) :
  binary_round_aux prec emax (negb s) m e l =
  SFopp (binary_round_aux prec emax s m e l).
Proof.
  rewrite !binary_round_aux_finish.
  destruct (shr_fexp prec emax m e l) as [mrs e']. apply finish_opp.
Qed.

Lemma rne_range (N D E d : Z) :
  0 <= N -> 0 < D -> 0 <= d -> N < D * 2 ^ d ->
  E <= Z.max (d + E - 53) (-1074) ->
  0 <= rne N (D * 2 ^ (Z.max (d + E - 53) (-1074) - E)) <= 2 ^ 53.
Proof.
  intros HN HD Hd Hu Hp.
  set (n := Z.max (d + E - 53) (-1074) - E) in *.
  pose proof (pow2_pos n ltac:(lia)) as Hn.
  assert (HG : 0 < D * 2 ^ n) by nia.
  split.
  - pose proof (rne_bounds N _ HN HG). pose proof (Z.div_pos N (D * 2 ^ n) HN HG). lia.
  - apply rne_le; try assumption.
    assert (2 ^ d <= 2 ^ (53 + n)) by (apply Z.pow_le_mono_r; lia).
    rewrite pow2_add in * by lia. nia.
Qed.

Lemma finish_nonneg (r t : Z) :
  -1074 <= t -> 0 <= r <= 2 ^ 53 -> nonneg (finish false r t) = true.
Proof.
  intros Ht Hr.
  assert (C : r = 0 \/ 0 < r < 2 ^ 53 \/ r = 2 ^ 53) by lia.
  destruct C as [-> | [C | ->]].
  - now rewrite finish_zero.
  - rewrite finish_small by assumption. now destruct (t <=? 971).
  - rewrite finish_carry by assumption. now destruct (t + 1 <=? 971).
Qed.

Lemma round_nonneg (N D E : Z) (l : location) :
  0 <= N -> 0 < D ->
  shr_record_of_loc (N / D) l = locate N D ->
  E <= fexp prec emax (Zdigits2 (N / D) + E) ->
  nonneg (binary_round_aux prec emax false (N / D) E l) = true.
Proof.
  intros HN HD Hl Hp. rewrite binary_round_aux_spec by assumption.
  rewrite fexp_spec in *. apply finish_nonneg; [lia|].
  apply rne_range; try assumption.
  - apply Zdigits2_nonneg.
  - now apply quotient_upper.
Qed.

Lemma SFleb_opp (x y : spec_float) : SFleb (SFopp y) (SFopp x) = SFleb x y.
Proof.
  unfold SFleb.
  destruct x as [[]|[]| |[] m1 e1], y as [[]|[]| |[] m2 e2]; cbn; try reflexivity.
  - destruct (Z.compare_spec e2 e1), (Z.compare_spec e1 e2); try lia; try reflexivity.
    subst. change (Pos.compare_cont Eq m1 m2) with (Pos.compare m1 m2).
    change (Pos.compare_cont Eq m2 m1) with (Pos.compare m2 m1).
    rewrite (Pos.compare_antisym m1 m2). now destruct (Pos.compare m1 m2).
  - destruct (Z.compare_spec e2 e1), (Z.compare_spec e1 e2); try lia; try reflexivity.
    subst. change (Pos.compare_cont Eq m1 m2) with (Pos.compare m1 m2).
    change (Pos.compare_cont Eq m2 m1) with (Pos.compare m2 m1).
    rewrite (Pos.compare_antisym m1 m2). now destruct (Pos.compare m1 m2).
Qed.

Lemma SFopp_involutive (x : spec_float) : SFopp (SFopp x) = x.
Proof. destruct x as [s|s| |s m e]; cbn; now rewrite ?negb_involutive. Qed.

Lemma valid_opp (x : spec_float) :
  valid_binary (SFopp x) = valid_binary x.
Proof. now destruct x. Qed.

Lemma SFleb_signs (x y : spec_float) :
  nonneg (SFopp x) = true -> nonneg y = true -> SFleb x y = true.
Proof.
  destruct x as [[]|[]| |[] m1 e1], y as [[]|[]| |[] m2 e2]; cbn;
    try discriminate; reflexivity.
Qed.

Lemma SFleb_cases (x y : spec_float) :
  SFleb x y = true ->
  (nonneg (SFopp x) = true /\ nonneg y = true) \/
  (nonneg x = true /\ nonneg y = true) \/
  (nonneg (SFopp x) = true /\ nonneg (SFopp y) = true).
Proof.
  destruct x as [[]|[]| |[] m1 e1], y as [[]|[]| |[] m2 e2]; cbn;
    try discriminate; auto.
Qed.

(** An odd function of the doubles that is monotone on the doubles that
    are not negative is monotone. *)
Section Odd.
Variable f : spec_float -> spec_float.
Hypothesis f_opp : forall x, f (SFopp x) = SFopp (f x).
Hypothesis f_nonneg :
  forall x, valid_binary x = true -> nonneg x = true -> nonneg (f x) = true.
Hypothesis f_mono :
  forall x y, valid_binary x = true -> valid_binary y = true ->
              nonneg x = true -> nonneg y = true ->
              SFleb x y = true -> SFleb (f x) (f y) = true.

Lemma odd_mono (x y : spec_float) :
  valid_binary x = true -> valid_binary y = true ->
  SFleb x y = true -> SFleb (f x) (f y) = true.
Proof.
  intros Vx Vy Hle.
  destruct (SFleb_cases x y Hle) as [[Hx Hy] | [[Hx Hy] | [Hx Hy]]].
  - apply SFleb_signs.
    + rewrite <- f_opp. apply f_nonneg; [now rewrite valid_opp | assumption].
    + now apply f_nonneg.
  - now apply f_mono.
  - rewrite <- SFleb_opp, <- !f_opp.
    apply f_mono; rewrite ?valid_opp; try assumption.
    now rewrite SFleb_opp.
Qed.
End Odd.

Lemma SFleb_zero_nonneg (s : bool) (y : spec_float) :
  nonneg y = true -> SFleb (S754_zero s) y = true.
Proof. destruct y as [[]|[]| |[] m e]; cbn; try discriminate; reflexivity. Qed.

Lemma SFleb_nonneg_infinity (x : spec_float) :
  nonneg x = true -> SFleb x (S754_infinity false) = true.
Proof. destruct x as [[]|[]| |[] m e]; cbn; try discriminate; reflexivity. Qed.

Section Scaling.
Variables (md : positive) (ed : Z).
Hypothesis Bd : bounded prec emax md ed = true.

Lemma mul_round_pre (m : positive) (e : Z) :
  bounded prec emax m e = true ->
  e + ed <= fexp prec emax (Zdigits2 (Z.pos (m * md) / 1) + (e + ed)).
Proof.
  intros B. pose proof (digits_mul m md) as D1.
  apply bounded_spec in B. pose proof (bounded_spec _ _ Bd) as B'.
  pose proof (Zdigits2_pos (Z.pos m) ltac:(lia)).
  pose proof (Zdigits2_pos (Z.pos md) ltac:(lia)).
  rewrite fexp_spec, Z.div_1_r. lia.
Qed.

Lemma SFmul_opp (x : spec_float) :
  SFmul prec emax (SFopp x) (S754_finite false md ed) =
  SFopp (SFmul prec emax x (S754_finite false md ed)).
Proof.
  destruct x as [s|s| |s m e]; cbn [SFopp SFmul]; try reflexivity.
  - now destruct s.
  - now destruct s.
  - destruct s; cbn [xorb negb].
    + now rewrite (binary_round_aux_opp false), SFopp_involutive.
    + apply (binary_round_aux_opp false).
Qed.

Lemma SFmul_nonneg (x : spec_float) :
  valid_binary x = true -> nonneg x = true ->
  nonneg (SFmul prec emax x (S754_finite false md ed)) = true.
Proof.
  destruct x as [s|[]| |[] m e]; cbn [SFmul nonneg xorb valid_binary];
    try discriminate; try reflexivity.
  intros B _. rewrite <- (Z.div_1_r (Z.pos (m * md))).
  apply round_nonneg; try lia.
  - apply locate_exact.
  - now apply mul_round_pre.
Qed.

Lemma SFmul_mono_nonneg (x y : spec_float) :
  valid_binary x = true -> valid_binary y = true ->
  nonneg x = true -> nonneg y = true ->
  SFleb x y = true ->
  SFleb (SFmul prec emax x (S754_finite false md ed))
        (SFmul prec emax y (S754_finite false md ed)) = true.
Proof.
  intros Vx Vy Hx Hy Hle.
  pose proof (SFmul_nonneg y Vy Hy) as Hfy.
  destruct x as [sx|[]| |[] m1 e1]; try discriminate.
  - cbn [SFmul]. 
    destruct y as [sy|[]| |[] m2 e2]; try discriminate; cbn [SFmul xorb] in *;
      try reflexivity.
    now apply SFleb_zero_nonneg.
  - destruct y as [sy|[]| |[] m2 e2]; try discriminate. reflexivity.
  - destruct y as [sy|[]| |[] m2 e2]; try discriminate.
    + cbn [SFmul xorb]. apply SFleb_nonneg_infinity.
      exact (SFmul_nonneg (S754_finite false m1 e1) Vx eq_refl).
    + cbn [SFmul xorb]. now apply mul_core_mono.
Qed.

Lemma SFmul_mono (x y : spec_float) :
  valid_binary x = true -> valid_binary y = true ->
  SFleb x y = true ->
  SFleb (SFmul prec emax x (S754_finite false md ed))
        (SFmul prec emax y (S754_finite false md ed)) = true.
Proof.
  apply (odd_mono (fun x => SFmul prec emax x (S754_finite false md ed))).
  - exact SFmul_opp.
  - exact SFmul_nonneg.
  - exact SFmul_mono_nonneg.
Qed.

Lemma div_round_pre (m : positive) (e : Z) :
  div_exponent m md e ed <=
  fexp prec emax
    (Zdigits2 (Z.pos m * 2 ^ (e - ed - div_exponent m md e ed) / Z.pos md)
     + div_exponent m md e ed).
Proof.
  rewrite fexp_spec.
  destruct (Z.le_gt_cases (div_exponent m md e ed) (-1074)) as [H | H]; [lia|].
  pose proof (quotient_digits m md (e - ed - div_exponent m md e ed)) as Hq.
  unfold div_exponent in H, Hq |- *. lia.
Qed.

Lemma SFdiv_opp (x : spec_float) :
  SFdiv prec emax (SFopp x) (S754_finite false md ed) =
  SFopp (SFdiv prec emax x (S754_finite false md ed)).
Proof.
  destruct x as [s|s| |s m e]; cbn [SFopp SFdiv]; try reflexivity.
  - now destruct s.
  - now destruct s.
  - destruct (SFdiv_core_binary prec emax (Z.pos m) e (Z.pos md) ed) as [[q e'] l].
    destruct s; cbn [xorb negb].
    + now rewrite (binary_round_aux_opp false), SFopp_involutive.
    + apply (binary_round_aux_opp false).
Qed.

Lemma SFdiv_nonneg (x : spec_float) :
  valid_binary x = true -> nonneg x = true ->
  nonneg (SFdiv prec emax x (S754_finite false md ed)) = true.
Proof.
  destruct x as [s|[]| |[] m e]; cbn [SFdiv nonneg xorb valid_binary];
    try discriminate; try reflexivity.
  intros B _. rewrite SFdiv_core_spec. cbv zeta.
  assert (H : div_exponent m md e ed <= e - ed) by (unfold div_exponent; lia).
  pose proof (pow2_pos (e - ed - div_exponent m md e ed) ltac:(lia)).
  apply round_nonneg; try lia.
  - apply new_location_locate; lia.
  - apply div_round_pre.
Qed.

Lemma SFdiv_mono_nonneg (x y : spec_float) :
  valid_binary x = true -> valid_binary y = true ->
  nonneg x = true -> nonneg y = true ->
  SFleb x y = true ->
  SFleb (SFdiv prec emax x (S754_finite false md ed))
        (SFdiv prec emax y (S754_finite false md ed)) = true.
Proof.
  intros Vx Vy Hx Hy Hle.
  pose proof (SFdiv_nonneg y Vy Hy) as Hfy.
  destruct x as [sx|[]| |[] m1 e1]; try discriminate.
  - destruct y as [sy|[]| |[] m2 e2]; try discriminate; cbn [SFdiv xorb] in *;
      try reflexivity.
    now apply SFleb_zero_nonneg.
  - destruct y as [sy|[]| |[] m2 e2]; try discriminate. reflexivity.
  - destruct y as [sy|[]| |[] m2 e2]; try discriminate.
    + change (SFdiv prec emax (S754_infinity false) (S754_finite false md ed))
        with (S754_infinity false).
      apply SFleb_nonneg_infinity.
      exact (SFdiv_nonneg (S754_finite false m1 e1) Vx eq_refl).
    + now apply div_core_mono.
Qed.

Lemma SFdiv_mono (x y : spec_float) :
  valid_binary x = true -> valid_binary y = true ->
  SFleb x y = true ->
  SFleb (SFdiv prec emax x (S754_finite false md ed))
        (SFdiv prec emax y (S754_finite false md ed)) = true.
Proof.
  apply (odd_mono (fun x => SFdiv prec emax x (S754_finite false md ed))).
  - exact SFdiv_opp.
  - exact SFdiv_nonneg.
  - exact SFdiv_mono_nonneg.
Qed.
End Scaling.

Local Open Scope float_scope.

Lemma f64_mul_le_mono (a b d : float) :
  (a <=? b) = true -> is_finite d = true -> (0 <? d) = true ->
  (a * d <=? b * d) = true.
Proof.
  intros Hle Hfin Hpos.
  destruct (positive_finite d Hfin Hpos) as (m & e & E & B).
  rewrite leb_spec in *. rewrite !mul_spec, E.
  apply SFmul_mono; auto using Prim2SF_valid.
Qed.

Lemma f64_div_le_mono (a b w : float) :
  (a <=? b) = true -> is_finite w = true -> (0 <? w) = true ->
  (a / w <=? b / w) = true.
Proof.
  intros Hle Hfin Hpos.
  destruct (positive_finite w Hfin Hpos) as (m & e & E & B).
  rewrite leb_spec in *. rewrite !div_spec, E.
  apply SFdiv_mono; auto using Prim2SF_valid.
Qed.

(** The two facts on rounding, and with them the facts of arithmetic, hold
    of the doubles. *)
Lemma binary64_rounding : Rounding binary64.
Proof.
  constructor; cbn.
  - exact f64_mul_le_mono.
  - exact f64_div_le_mono.
Qed.

Lemma binary64_laws : Arithmetic binary64.
Proof. exact (binary64_arithmetic binary64_rounding). Qed.
End RoundingFacts.


(** ** The session, run *)

Section SessionFacts.
#[local] Existing Instance binary64.
#[local] Set Warnings "-inexact-float".
Local Open Scope js_scope.

(** C2.  A click that succeeds appends exactly the chunk
    [{start: currentTime, end: min(currentTime + maxChunk, duration)}] after
    the chunks that were there, and a click succeeds when the duration is
    not [<= 0], the candidate overlaps no chunk and it is not shorter than
    [minChunk].  With the playhead at 5, a duration of 20 and no chunk, the
    click appends [{start: 5, end: 15}]. *)
Theorem addChunk_formula :
  (forall (N : Number) (st st' : State) (c : Chunk),
     handleAddChunk st = (Appended c, st') ->
     exists video,
       videoRef st = Some video /\
       c = {| start := Video.currentTime video;
              end_ := Math_min (Video.currentTime video + maxChunk)
                               (duration st) |} /\
       chunks st' = chunks st ++ [c]) /\
  (forall (N : Number) (st : State) (video : Video.t),
     videoRef st = Some video ->
     (duration st <=? zero) = false ->
     let cand := candidate (Video.currentTime video) (duration st) in
     existsb (overlapsWith cand) (chunks st) = false ->
     (end_ cand - start cand <? minChunk) = false ->
     handleAddChunk st =
     (Appended cand, setChunks (fun prev => prev ++ [cand]) st)) /\
  handleAddChunk (editor 5%float 20%float []) =
  (Appended chunk_5_15, editor 5%float 20%float [chunk_5_15]).
Proof.
  split; [|split].
  - intros N st st' c H.
    destruct (handleAddChunk_appended _ H) as (video & Hv & Hc & ->).
    exists video. auto.
  - intros N st video. apply handleAddChunk_succeeds.
  - reflexivity.
Qed.

(** C1, on a session: two clicks, at 5 and at 15 of a twenty-second video,
    leave two chunks that do not overlap. *)
Lemma chunks_never_overlap_witness :
  NoOverlap (N := binary64) [chunk_5_15; chunk_15_20].
Proof.
  apply (@chunks_never_overlap binary64
           (editor 15%float 20%float [chunk_5_15; chunk_15_20])).
  apply reach_add
    with (st := editor 15%float 20%float [chunk_5_15])
         (out := Appended chunk_15_20); [|reflexivity].
  apply reach_other with (st := editor 5%float 20%float [chunk_5_15]);
    [|reflexivity].
  apply reach_add
    with (st := editor 5%float 20%float []) (out := Appended chunk_5_15);
    [|reflexivity].
  apply reach_initial. reflexivity.
Defined.

(** C3, on a session: with the chunk from 5 to 15 in place, a click at 12
    of an eighteen-second video is refused as overlapping, and a click at
    19 of a twenty-second video with no chunk is refused as too short. *)
Lemma overlapping_or_short_rejected_witness :
  handleAddChunk (editor 12%float 18%float [chunk_5_15]) =
    (Alert "Chunk overlaps another!", editor 12%float 18%float [chunk_5_15]) /\
  handleAddChunk (editor 19%float 20%float []) =
    (Alert "Chunk too short!", editor 19%float 20%float []).
Proof.
  split.
  - apply (proj1 (@overlapping_or_short_rejected binary64
                    (editor 12%float 18%float [chunk_5_15])
                    (video_at 12%float 18%float) eq_refl eq_refl)).
    exists chunk_5_15. split; [now left|].
    intros [H | H]; vm_compute in H; discriminate.
  - apply (proj1 (proj2 (@overlapping_or_short_rejected binary64
                           (editor 19%float 20%float [])
                           (video_at 19%float 20%float) eq_refl eq_refl))).
    + reflexivity.
    + intros c [].
Defined.

(** C10, on a session: at the first render the duration is 0, and a click
    on "Add Chunk" does nothing. *)
Lemma no_duration_silent_witness :
  handleAddChunk (initialState (N := binary64) (Some unloaded) None) =
  (Silent, initialState (Some unloaded) None).
Proof.
  apply (@no_duration_silent binary64). right. reflexivity.
Defined.

(** C4.  The rendered geometry divides by the duration without a guard: at
    the first render, with the duration and the playback position at 0, the
    offset of the playhead is [NaN], and a chunk rendered against a duration
    of 0 gets an infinite offset and an infinite width. *)
Theorem render_divides_by_zero :
  (forall video timeline,
     isNaN (playhead (render (initialState (N := binary64) video timeline)))
     = true) /\
  chunkStyle (N := binary64) 0%float chunk_5_15 =
  @Build_ChunkStyle binary64 infinity infinity.
Proof. split; reflexivity. Qed.

(** On the doubles, the listener of [timeupdate] of a mounted page always
    takes the fallback: it reads the duration of the first render, which
    is 0, whatever the working duration has become. *)
Lemma onTimeUpdate_fallback (p : Page (N := binary64)) (video : Video.t)
    (seekableStart seekableEnd : num) (ranges : list (num * num)) :
  captured p = zero ->
  videoRef (state p) = Some video ->
  (Video.currentTime video >? zero) = true ->
  Video.seekable video = (seekableStart, seekableEnd) :: ranges ->
  duration (state (onTimeUpdate p)) = seekableEnd.
Proof.
  intros Hcaptured Hvideo Hplaying Hseekable. unfold onTimeUpdate.
  rewrite Hvideo, Hcaptured, Hplaying. unfold seekableDuration.
  rewrite Hseekable. reflexivity.
Qed.

(** C7.  The page has adopted the thirty seconds of the metadata as its
    working duration; the next time update, with the playback at one
    second and a seekable range that ends at twelve, replaces them by
    twelve. *)
Theorem time_update_overwrites_adopted_duration :
  duration (state resolved_page) = 30%float /\
  captured resolved_page = 0%float /\
  Video.seekable
    (N := binary64)
    (match videoRef (state playing) with
     | Some video => video
     | None => unloaded
     end) = [(0%float, 12%float)] /\
  duration (state (onTimeUpdate playing)) = 12%float.
Proof. repeat split; reflexivity. Qed.
(** On the doubles: fifteen samples of a thirty-second video are taken at
    0, 2, ..., 28; clicks on a timeline 640 wide with a duration of 20 seek
    to 0, 10 and 20 from 0, 320 and 640, and clicks left and right of the
    timeline seek to 0 and 20; a recording of infinite duration gets the
    end of its seekable range as working duration on the first time
    update. *)
Lemma scenarios_on_doubles :
  timestamps 30%float 15 =
    [0; 2; 4; 6; 8; 10; 12; 14; 16; 18; 20; 22; 24; 26; 28]%float /\
  pixelToTime 0%float 640%float 20%float = Some 0%float /\
  pixelToTime 320%float 640%float 20%float = Some 10%float /\
  pixelToTime 640%float 640%float 20%float = Some 20%float /\
  pixelToTime (-5)%float 640%float 20%float = Some 0%float /\
  pixelToTime 700%float 640%float 20%float = Some 20%float /\
  duration (state (onTimeUpdate (mount flaky (Some recording) None))) =
    42.3%float.
Proof. repeat split; reflexivity. Qed.


(** C6, on a session: a batch of fifteen samples in which one seek times
    out and one capture throws hands the video back as it was. *)
Lemma generateThumbnails_restores_witness :
  exists b,
    generateThumbnails (N := binary64) flaky 4 observed 15 = Some b /\
    source b = observed.
Proof.
  apply (@generateThumbnails_restores binary64 flaky 4 observed 15).
  intros id Hin. simpl in Hin.
  destruct Hin as [H | [H | [H | [H | []]]]]; inversion H. lia.
Defined.

(** C9, on a session: a seek to 6 that meets no [seeked] event for 5000 ms
    is rejected, and one that meets it after 40 ms is fulfilled; both leave
    the video at 6 with its listeners as they were. *)
Lemma seekTo_resolves_or_times_out_witness :
  run [Elapse 5000] (seekTo (N := binary64) 4 observed 6%float) =
    {| element := Video.setCurrentTime 6%float observed;
       onSeeked := 4;
       timeout := None;
       promise := Rejected "Seek timeout" |} /\
  run [Elapse 40; Seeked] (seekTo (N := binary64) 4 observed 6%float) =
    {| element := Video.setCurrentTime 6%float observed;
       onSeeked := 4;
       timeout := None;
       promise := Fulfilled |}.
Proof.
  destruct (@seekTo_resolves_or_times_out binary64 4 observed 6%float eq_refl)
    as (_ & _ & Htimeout & Hseeked).
  split.
  - apply (Htimeout [Elapse 5000] []); simpl; [|lia].
    intros [H | []]. discriminate.
  - apply (Hseeked [Elapse 40] []); simpl; [|lia].
    intros [H | []]. discriminate.
Defined.

(** C8.  On the doubles, [pixelToTime] is the map
    [clickX / timelineWidth * duration], clamped to [[0, duration]]: on a
    timeline of finite positive width and with a finite positive duration,
    a click at 0 seeks to 0 and a click at the width seeks to the duration,
    a click in between seeks to [clickX / timelineWidth * duration], every
    click that is a number seeks somewhere between 0 and the duration, and
    a click further right never seeks further left.  When the duration is
    not [> 0] the click does nothing. *)
Theorem pixelToTime_linear_clamped :
  (forall x w d : float,
     (zero <? d) = false -> pixelToTime x w d = None) /\
  (forall (clientX : float) (st : State),
     (zero <? duration st) = false -> handleTimelineClick clientX st = st) /\
  (forall w d : float,
     (zero <? w) = true -> isFinite d = true -> (zero <? d) = true ->
     pixelToTime zero w d = Some zero) /\
  (forall w d : float,
     isFinite w = true -> (zero <? w) = true ->
     isFinite d = true -> (zero <? d) = true ->
     pixelToTime w w d = Some d) /\
  (forall x w d : float,
     isFinite w = true -> (zero <? w) = true ->
     isFinite d = true -> (zero <? d) = true ->
     (zero <=? x) = true -> (x <=? w) = true ->
     exists t, pixelToTime x w d = Some t /\ (t =? x / w * d) = true) /\
  (forall x w d : float,
     isFinite w = true -> (zero <? w) = true ->
     isFinite d = true -> (zero <? d) = true ->
     (x <=? x) = true ->
     exists t, pixelToTime x w d = Some t) /\
  (forall x w d t : float,
     pixelToTime x w d = Some t ->
     (zero <=? t) = true /\ (t <=? d) = true) /\
  (forall x x' w d t t' : float,
     isFinite w = true -> (zero <? w) = true ->
     (x <=? x') = true ->
     pixelToTime x w d = Some t -> pixelToTime x' w d = Some t' ->
     (t <=? t') = true).
Proof. exact (pixelToTime_from_arithmetic binary64_laws). Qed.

(** C8, on a session: on a timeline 640 wide and with a duration of 20, a
    click at 0 seeks to 0, a click at 640 seeks to 20, a click at 250
    seeks between 0 and 20, and no further than a click at 251. *)
Lemma pixelToTime_linear_clamped_witness :
  pixelToTime 0%float 640%float 20%float = Some 0%float /\
  pixelToTime 640%float 640%float 20%float = Some 20%float /\
  (forall t,
     pixelToTime 250%float 640%float 20%float = Some t ->
     (zero <=? t) = true /\ (t <=? 20%float) = true) /\
  (forall t t',
     pixelToTime 250%float 640%float 20%float = Some t ->
     pixelToTime 251%float 640%float 20%float = Some t' ->
     (t <=? t') = true).
Proof.
  destruct pixelToTime_linear_clamped
    as (_ & _ & Hzero & Hfull & _ & _ & Hclamp & Hmono).
  split; [|split; [|split]].
  - apply Hzero; reflexivity.
  - apply Hfull; reflexivity.
  - intros t. apply Hclamp.
  - intros t t'. apply Hmono; reflexivity.
Defined.

(** The same in exact arithmetic: a click at 320 of 640 seeks to the
    middle of a duration of 20. *)
Lemma pixelToTime_exact_middle :
  exists t,
    pixelToTime (N := Exact.exact) (ofNat 320) (ofNat 640) (ofNat 20) = Some t /\
    (t =? ofNat 320 / ofNat 640 * ofNat 20) = true.
Proof.
  destruct (pixelToTime_from_arithmetic exact_arithmetic)
    as (_ & _ & _ & _ & Hlinear & _).
  apply Hlinear; reflexivity.
Qed.
End SessionFacts.
